(** * Masonry wall planner: bond layout generator and stride calculator

    A shallow embedding of [src/utils/strideCalculator.ts]:
    [generateInitialBrickLayout] (the bond-pattern generator),
    [isBrickSupported] (the support test) and [calculateWallStrides]
    (the greedy stride planner).

    JavaScript numbers are modelled as exact rationals [Q]; brick objects
    live in an explicit object store (a [list Brick] addressed by
    locations), since the planner copies and mutates objects. *)

From Stdlib Require Import QArith Qminmax Qround Lqa ZArith Lia.
From Stdlib Require Import String Ascii Bool List Sorted Permutation DecimalNat.
Import ListNotations.

Open Scope Q_scope.

(** ** Constants *)

Definition FULL_BRICK_LENGTH : Q := 210.
Definition HALF_BRICK_LENGTH : Q := 100.
Definition BRICK_HEIGHT : Q := 50.
Definition HEAD_JOINT : Q := 10.
Definition COURSE_HEIGHT : Q := 125 # 2.
Definition CUSTOM_BRICK_ECB1_LENGTH : Q := 40.
Definition CUSTOM_BRICK_FLEMISH_HEADER_LENGTH : Q := 45.

(** ** Data model *)

Inductive BondType := stretcher | english_cross | flemish.

Inductive BrickType := full | half | custom_40 | custom_end | custom_45.

(** The field [length] of the TypeScript interface is called [len]
    here, to keep [List.length] usable. *)
Record Brick := mkBrick {
  x : Q;
  y : Q;
  type : BrickType;
  len : Q;
  strideIndex : Z;
  orderInStride : Z;
  id : string
}.

Record StrideMeta := mkMeta { minX : Q; minY : Q; maxX : Q; maxY : Q }.

(** Strict comparison of numbers, [a < b]. *)
Definition Qlt_bool (a b : Q) : bool := negb (Qle_bool b a).

(** ** Decimal rendering of indices in template literals *)

Fixpoint string_of_uint (d : Decimal.uint) : string :=
  match d with
  | Decimal.Nil => EmptyString
  | Decimal.D0 d => String "0" (string_of_uint d)
  | Decimal.D1 d => String "1" (string_of_uint d)
  | Decimal.D2 d => String "2" (string_of_uint d)
  | Decimal.D3 d => String "3" (string_of_uint d)
  | Decimal.D4 d => String "4" (string_of_uint d)
  | Decimal.D5 d => String "5" (string_of_uint d)
  | Decimal.D6 d => String "6" (string_of_uint d)
  | Decimal.D7 d => String "7" (string_of_uint d)
  | Decimal.D8 d => String "8" (string_of_uint d)
  | Decimal.D9 d => String "9" (string_of_uint d)
  end.

Definition string_of_nat (n : nat) : string := string_of_uint (Nat.to_uint n).

(** [`brick-${courseIndex}-${brickInCourseIndex}`] *)
Definition brick_id (courseIndex brickInCourseIndex : nat) : string :=
  ("brick-" ++ string_of_nat courseIndex ++ "-" ++
   string_of_nat brickInCourseIndex)%string.

(** ** Layout generator: brick selection of each bond *)

(** [brickToPlace] of the stretcher branch. Every branch assigns a brick,
    so the [null] case never arises; the result is still an option, as
    in the source. *)
Definition stretcher_choice (isEvenCourse : bool) (brickInCourseIndex : nat)
    (remainingRowLength : Q) : option (BrickType * Q) :=
  let startWithHalf := negb isEvenCourse && Nat.eqb brickInCourseIndex 0 in
  if startWithHalf then
    if Qle_bool HALF_BRICK_LENGTH remainingRowLength
    then Some (half, HALF_BRICK_LENGTH)
    else Some (custom_end, remainingRowLength)
  else
    if Qle_bool FULL_BRICK_LENGTH remainingRowLength
    then Some (full, FULL_BRICK_LENGTH)
    else if Qle_bool HALF_BRICK_LENGTH remainingRowLength
    then Some (half, HALF_BRICK_LENGTH)
    else Some (custom_end, remainingRowLength).

(** [brickToPlace] of the english_cross branch. *)
Definition english_cross_choice (patternType : Z) (brickInCourseIndex : nat)
    (remainingRowLength : Q) : option (BrickType * Q) :=
  if Z.eqb patternType 0 then
    if Qle_bool FULL_BRICK_LENGTH remainingRowLength
    then Some (full, FULL_BRICK_LENGTH)
    else if Qle_bool HALF_BRICK_LENGTH remainingRowLength
    then Some (half, HALF_BRICK_LENGTH)
    else Some (custom_end, remainingRowLength)
  else if Z.eqb patternType 1 || Z.eqb patternType 3 then
    if Nat.eqb brickInCourseIndex 0 then
      if Qle_bool CUSTOM_BRICK_ECB1_LENGTH remainingRowLength
      then Some (custom_40, CUSTOM_BRICK_ECB1_LENGTH)
      else Some (custom_end, remainingRowLength)
    else
      if Qle_bool HALF_BRICK_LENGTH remainingRowLength
      then Some (half, HALF_BRICK_LENGTH)
      else Some (custom_end, remainingRowLength)
  else
    if Nat.eqb brickInCourseIndex 0 then
      if Qle_bool HALF_BRICK_LENGTH remainingRowLength
      then Some (half, HALF_BRICK_LENGTH)
      else Some (custom_end, remainingRowLength)
    else
      if Qle_bool FULL_BRICK_LENGTH remainingRowLength
      then Some (full, FULL_BRICK_LENGTH)
      else if Qle_bool HALF_BRICK_LENGTH remainingRowLength
      then Some (half, HALF_BRICK_LENGTH)
      else Some (custom_end, remainingRowLength).

(** [brickToPlace] of the flemish branch. *)
Definition flemish_choice (isLine1Pattern : bool) (brickInCourseIndex : nat)
    (remainingRowLength : Q) : option (BrickType * Q) :=
  if isLine1Pattern then
    let useFullBrick := Nat.eqb (Nat.modulo brickInCourseIndex 2) 0 in
    if useFullBrick then
      if Qle_bool FULL_BRICK_LENGTH remainingRowLength
      then Some (full, FULL_BRICK_LENGTH)
      else if Qle_bool HALF_BRICK_LENGTH remainingRowLength
      then Some (half, HALF_BRICK_LENGTH)
      else Some (custom_end, remainingRowLength)
    else
      if Qle_bool HALF_BRICK_LENGTH remainingRowLength
      then Some (half, HALF_BRICK_LENGTH)
      else Some (custom_end, remainingRowLength)
  else
    if Nat.eqb brickInCourseIndex 0 then
      if Qle_bool CUSTOM_BRICK_FLEMISH_HEADER_LENGTH remainingRowLength
      then Some (custom_45, CUSTOM_BRICK_FLEMISH_HEADER_LENGTH)
      else Some (custom_end, remainingRowLength)
    else
      let isHalfBrickSpot :=
        Z.eqb (Z.modulo (Z.of_nat brickInCourseIndex - 1) 2) 0 in
      if isHalfBrickSpot then
        if Qle_bool HALF_BRICK_LENGTH remainingRowLength
        then Some (half, HALF_BRICK_LENGTH)
        else Some (custom_end, remainingRowLength)
      else
        if Qle_bool FULL_BRICK_LENGTH remainingRowLength
        then Some (full, FULL_BRICK_LENGTH)
        else if Qle_bool HALF_BRICK_LENGTH remainingRowLength
        then Some (half, HALF_BRICK_LENGTH)
        else Some (custom_end, remainingRowLength).

(** The per-course selection of the three branches of the generator;
    [courseIndex % 2 === 0] and [courseIndex % 4] as in the source. *)
Definition course_choice (bondType : BondType) (courseIndex : nat) :
    nat -> Q -> option (BrickType * Q) :=
  match bondType with
  | stretcher => stretcher_choice (Nat.eqb (Nat.modulo courseIndex 2) 0)
  | english_cross => english_cross_choice (Z.of_nat (Nat.modulo courseIndex 4))
  | flemish => flemish_choice (Nat.eqb (Nat.modulo courseIndex 2) 0)
  end.

(** ** Layout generator: the course loop

    The three branches of the source run the same [while] loop and
    differ only in [brickToPlace]; [lay_course] is that loop, with the
    selection passed in. [fuel] bounds the iterations: [None] means it
    ran out (the lemma [lay_course_total] shows it never does). *)
Fixpoint lay_course (fuel : nat) (choose : nat -> Q -> option (BrickType * Q))
    (wallWidth yc : Q) (courseIndex : nat) (currentX : Q)
    (brickInCourseIndex : nat) : option (list Brick) :=
  match fuel with
  | O => None
  | S fuel' =>
    if Qlt_bool currentX wallWidth then
      let remainingRowLength := wallWidth - currentX in
      if Qle_bool remainingRowLength 0 then Some []
      else
        match choose brickInCourseIndex remainingRowLength with
        | None => Some []
        | Some (t, l) =>
          let b := mkBrick currentX yc t l (-1) (-1)
                     (brick_id courseIndex brickInCourseIndex) in
          let nextX := if Qlt_bool (currentX + l) wallWidth
                       then currentX + l + HEAD_JOINT
                       else currentX + l in
          match lay_course fuel' choose wallWidth yc courseIndex nextX
                  (S brickInCourseIndex) with
          | None => None
          | Some rest => Some (b :: rest)
          end
        end
    else Some []
  end.

(** Iteration bound for one course: every brick that is followed by a
    head joint advances the cursor by at least 50. *)
Definition course_fuel (wallWidth : Q) : nat :=
  S (S (Z.to_nat (Qceiling (wallWidth / 50)))).

Definition course_bricks (bondType : BondType) (wallWidth : Q)
    (courseIndex : nat) : option (list Brick) :=
  lay_course (course_fuel wallWidth) (course_choice bondType courseIndex)
    wallWidth (inject_Z (Z.of_nat courseIndex) * COURSE_HEIGHT) courseIndex 0 0.

Fixpoint lay_courses (bondType : BondType) (wallWidth : Q)
    (courses : list nat) : option (list Brick) :=
  match courses with
  | [] => Some []
  | c :: cs =>
    match course_bricks bondType wallWidth c with
    | None => None
    | Some bs =>
      match lay_courses bondType wallWidth cs with
      | None => None
      | Some rest => Some (bs ++ rest)
      end
    end
  end.

(** [numCourses = Math.floor(wallHeight / COURSE_HEIGHT)]; the loop
    [for (courseIndex = 0; courseIndex < numCourses; ...)] runs over
    [0 .. numCourses-1], and not at all when [numCourses <= 0]. *)
Definition numCourses (wallHeight : Q) : Z := Qfloor (wallHeight / COURSE_HEIGHT).

Definition generateInitialBrickLayout (bondType : BondType)
    (wallWidth wallHeight : Q) : option (list Brick) :=
  lay_courses bondType wallWidth (seq 0 (Z.to_nat (numCourses wallHeight))).

(** ** Object store

    Brick objects are held in a store addressed by locations; the
    planner reads the input objects and allocates copies. *)

Definition loc := nat.
Definition heap := list Brick.

Definition brick0 : Brick := mkBrick 0 0 full 0 (-1) (-1) EmptyString.

Definition deref (h : heap) (l : loc) : Brick := nth l h brick0.

(** Write to the object at [l] (no effect out of range). *)
Fixpoint upd (h : heap) (l : loc) (f : Brick -> Brick) : heap :=
  match h, l with
  | [], _ => []
  | b :: h', O => f b :: h'
  | b :: h', S l' => b :: upd h' l' f
  end.

Definition set_strideIndex (k : Z) (b : Brick) : Brick :=
  mkBrick (x b) (y b) (type b) (len b) k (orderInStride b) (id b).

Definition set_orderInStride (o : Z) (b : Brick) : Brick :=
  mkBrick (x b) (y b) (type b) (len b) (strideIndex b) o (id b).

(** ** JavaScript collections *)

(** [Set<string>], in insertion order. *)
Definition set_has (s : list string) (i : string) : bool :=
  existsb (String.eqb i) s.

Definition set_add (s : list string) (i : string) : list string :=
  if set_has s i then s else s ++ [i].

(** [Set<number>], in insertion order. *)
Definition qset_add (s : list Q) (v : Q) : list Q :=
  if existsb (Qeq_bool v) s then s else s ++ [v].

(** [Record<number, StrideMeta>] as an association list. *)
Fixpoint rec_set (m : list (Z * StrideMeta)) (k : Z) (v : StrideMeta) :
    list (Z * StrideMeta) :=
  match m with
  | [] => [(k, v)]
  | (k', v') :: m' => if Z.eqb k k' then (k, v) :: m' else (k', v') :: rec_set m' k v
  end.

Fixpoint rec_get (m : list (Z * StrideMeta)) (k : Z) : option StrideMeta :=
  match m with
  | [] => None
  | (k', v') :: m' => if Z.eqb k k' then Some v' else rec_get m' k
  end.

(** [Array.prototype.sort] with a numeric comparator: a stable sort, an
    element going after every earlier element it does not compare
    strictly below. *)
Fixpoint insert_by {A} (cmp : A -> A -> Q) (a : A) (l : list A) : list A :=
  match l with
  | [] => [a]
  | b :: l' => if Qlt_bool (cmp a b) 0 then a :: b :: l' else b :: insert_by cmp a l'
  end.

Definition sort_by {A} (cmp : A -> A -> Q) (l : list A) : list A :=
  fold_left (fun acc a => insert_by cmp a acc) l [].

(** ** Support test ([isBrickSupported]) *)

(** The predicate of [allWallBricks.filter] in [isBrickSupported]. *)
Definition is_supporting (brick : Brick) (globallyPlacedBricks : list string)
    (bricksAlreadyInCurrentStride : list Brick) (c : Brick) : bool :=
  let brickEndX := x brick + len brick in
  if negb (Qeq_bool (y c) (y brick - COURSE_HEIGHT)) then false
  else
    let supportCandidateEndX := x c + len c in
    if negb (Qlt_bool (x c) brickEndX && Qlt_bool (x brick) supportCandidateEndX)
    then false
    else
      let isGloballyPlaced := set_has globallyPlacedBricks (id c) in
      let isLocallyPlaced :=
        existsb (fun b => String.eqb (id b) (id c)) bricksAlreadyInCurrentStride in
      isGloballyPlaced || isLocallyPlaced.

(** The contribution of one support in the summation loop. *)
Definition support_overlap (brick support : Brick) : Q :=
  let overlapStart := Qmax (x support) (x brick) in
  let overlapEnd := Qmin (x support + len support) (x brick + len brick) in
  if Qlt_bool overlapStart overlapEnd then overlapEnd - overlapStart else 0.

Definition isBrickSupported (brick : Brick) (globallyPlacedBricks : list string)
    (bricksAlreadyInCurrentStride : list Brick) (allWallBricks : list Brick) : bool :=
  if Qeq_bool (y brick) 0 then true
  else
    let supportingBricksBelow :=
      filter (is_supporting brick globallyPlacedBricks bricksAlreadyInCurrentStride)
        allWallBricks in
    let sortedActualSupports :=
      sort_by (fun a b => x a - x b) supportingBricksBelow in
    let totalActualSupportLength :=
      fold_left (fun acc s => acc + support_overlap brick s) sortedActualSupports 0 in
    let requiredSupportLength := len brick * (9 # 10) in
    Qle_bool requiredSupportLength totalActualSupportLength.

(** ** Stride selection ([calculateWallStrides], lines 82-185) *)

Record StrideOption := mkOption {
  startX : Q; startY : Q; bricks : list Brick; count : Z }.

Section Planner.

Variables (envWidth envHeight wallWidth : Q).

(** [Math.max(0, Math.min(v, wallWidth - envWidth))] *)
Definition clampX (v : Q) : Q := Qmax 0 (Qmin v (wallWidth - envWidth)).

(** The predicate of [horizontallyReachableUnplaced]. *)
Definition contained_in (sx sy : Q) (b : Brick) : bool :=
  Qle_bool sx (x b) && Qle_bool (x b + len b) (sx + envWidth) &&
  Qle_bool sy (y b) && Qle_bool (y b + BRICK_HEIGHT) (sy + envHeight).

(** The comparator of [potentialBricksForOption]: y, then x. *)
Definition yx_cmp (a b : Brick) : Q :=
  if negb (Qeq_bool (y a) (y b)) then y a - y b else x a - x b.

(** [unplacedBricks.reduce((min, b) => Math.min(min, b.y), Infinity)] on
    a non-empty list [u0 :: rest]: [Math.min(Infinity, u0.y)] is [u0.y]. *)
Definition bottom_most_y (u0 : Brick) (rest : list Brick) : Q :=
  fold_left (fun m b => Qmin m (y b)) rest (y u0).

(** [candidateRobotStartXPositions] *)
Definition candidate_xs (bottomMostY : Q) (unplacedBricks : list Brick) : list Q :=
  let set :=
    fold_left
      (fun s brick =>
         let candidate1 := clampX (x brick) in
         let s := qset_add s candidate1 in
         let candidate2 := clampX (x brick + len brick - envWidth) in
         qset_add s candidate2)
      (filter (fun b => Qeq_bool (y b) bottomMostY) unplacedBricks) [] in
  sort_by (fun a b => a - b) set.

(** The admission loop into [tempCurrentStrideAttempt]. *)
Definition admit_bricks (allWallBricks : list Brick) (placed : list string)
    (potentialBricksForOption : list Brick) : list Brick :=
  fold_left
    (fun temp potentialBrick =>
       if isBrickSupported potentialBrick placed temp allWallBricks
       then temp ++ [potentialBrick] else temp)
    potentialBricksForOption [].

(** One pass of [for (const candidateStartX of ...)]. *)
Definition evaluate_candidate (allWallBricks : list Brick) (placed : list string)
    (unplacedBricks : list Brick) (bottomMostY : Q) (best : StrideOption)
    (candidateStartX : Q) : StrideOption :=
  let candidateStartY := bottomMostY in
  let horizontallyReachableUnplaced :=
    filter (contained_in candidateStartX candidateStartY) unplacedBricks in
  let potentialBricksForOption := sort_by yx_cmp horizontallyReachableUnplaced in
  let temp := admit_bricks allWallBricks placed potentialBricksForOption in
  if Z.ltb (count best) (Z.of_nat (length temp))
  then mkOption candidateStartX candidateStartY temp (Z.of_nat (length temp))
  else best.

(** [bestStrideOption] after the candidate loop and the fallback, for the
    unplaced bricks [u0 :: urest]. *)
Definition choose_stride (allWallBricks : list Brick) (placed : list string)
    (u0 : Brick) (urest : list Brick) : StrideOption :=
  let unplacedBricks := u0 :: urest in
  let bottomMostY := bottom_most_y u0 urest in
  let best :=
    fold_left (evaluate_candidate allWallBricks placed unplacedBricks bottomMostY)
      (candidate_xs bottomMostY unplacedBricks) (mkOption (-1) (-1) [] (-1)) in
  if Z.leb (count best) 0
  then mkOption (clampX (x u0)) (y u0) [u0] 1
  else best.

(** ** The planning loop *)

Record PlanState := mkState {
  heap_of : heap;
  strides : list (list loc);
  envelopes : list (Z * StrideMeta);
  placed : list string;
  counter : Z }.

(** [finalCurrentStride.forEach(b => { b.strideIndex = ...; add(b.id) })] *)
Fixpoint mark_stride (h : heap) (p : list string) (k : Z) (ls : list loc) :
    heap * list string :=
  match ls with
  | [] => (h, p)
  | l :: ls' =>
    let h' := upd h l (set_strideIndex k) in
    mark_stride h' (set_add p (id (deref h' l))) k ls'
  end.

(** [finalCurrentStride.forEach((brick, order) => brick.orderInStride = order)] *)
Fixpoint mark_order (h : heap) (ls : list loc) (order : nat) : heap :=
  match ls with
  | [] => h
  | l :: ls' => mark_order (upd h l (set_orderInStride (Z.of_nat order))) ls' (S order)
  end.

(** The [StrideMeta] recorded for the chosen option. *)
Definition envelope_of (best : StrideOption) : StrideMeta :=
  mkMeta (startX best) (startY best) (startX best + envWidth) (startY best + envHeight).

(** Lines 187-209: copy the chosen bricks ([{...b}] allocates fresh
    objects), stamp the copies, record the envelope and the stride. *)
Definition commit (st : PlanState) (best : StrideOption) : PlanState :=
  let h := heap_of st in
  let h1 := h ++ bricks best in
  let finalCurrentStride := seq (length h) (length (bricks best)) in
  if Nat.ltb 0 (length finalCurrentStride) then
    let '(h2, p2) := mark_stride h1 (placed st) (counter st) finalCurrentStride in
    let h3 := mark_order h2 finalCurrentStride 0 in
    mkState h3 (strides st ++ [finalCurrentStride])
      (rec_set (envelopes st) (counter st) (envelope_of best)) p2 (counter st + 1)
  else mkState h1 (strides st) (envelopes st) (placed st) (counter st).

Variable allWallBricks : list loc.

Definition unplaced_of (st : PlanState) : list Brick :=
  filter (fun b => negb (set_has (placed st) (id b)))
    (map (deref (heap_of st)) allWallBricks).

(** [globallyPlacedBrickIds.size < allWallBricks.length] *)
Definition loop_cond (st : PlanState) : bool :=
  Nat.ltb (length (placed st)) (length allWallBricks).

(** The body of the [while] loop; [None] is the [break]. *)
Definition iteration (st : PlanState) : option PlanState :=
  let allv := map (deref (heap_of st)) allWallBricks in
  match unplaced_of st with
  | [] => None
  | u0 :: urest => Some (commit st (choose_stride allv (placed st) u0 urest))
  end.

(** The [while] loop, with [fuel] bounding the iterations ([None] when it
    runs out; [plan_final] shows it does not). *)
Fixpoint plan_loop (fuel : nat) (st : PlanState) : option PlanState :=
  match fuel with
  | O => None
  | S fuel' =>
    if loop_cond st then
      match iteration st with
      | None => Some st
      | Some st' => plan_loop fuel' st'
      end
    else Some st
  end.

End Planner.

Definition init_state (h0 : heap) : PlanState := mkState h0 [] [] [] 0.

(** [calculateWallStrides(allWallBricks, envWidth, envHeight, wallWidth)]
    on the store [h0]; returns the store, [strides] and [envelopes]. *)
Definition calculateWallStrides (h0 : heap) (allWallBricks : list loc)
    (envWidth envHeight wallWidth : Q) :
    option (heap * list (list loc) * list (Z * StrideMeta)) :=
  match plan_loop envWidth envHeight wallWidth allWallBricks
          (S (length allWallBricks)) (init_state h0) with
  | None => None
  | Some st => Some (heap_of st, strides st, envelopes st)
  end.

(** The planner states reached from [init_state h0] by iterations of
    the [while] loop. *)
Inductive reachable (envWidth envHeight wallWidth : Q) (allWallBricks : list loc)
    (h0 : heap) : PlanState -> Prop :=
| reach_init : reachable envWidth envHeight wallWidth allWallBricks h0 (init_state h0)
| reach_step st st' :
    reachable envWidth envHeight wallWidth allWallBricks h0 st ->
    loop_cond allWallBricks st = true ->
    iteration envWidth envHeight wallWidth allWallBricks st = Some st' ->
    reachable envWidth envHeight wallWidth allWallBricks h0 st'.

(** [bottomMostY] of a state: the reduction over its unplaced bricks,
    [None] standing for [Infinity] (no unplaced brick). *)
Definition bottomMostY_of (allWallBricks : list loc) (st : PlanState) : option Q :=
  match unplaced_of allWallBricks st with
  | [] => None
  | u0 :: urest => Some (bottom_most_y u0 urest)
  end.

(** A wall as a store, its bricks at locations [0 .. n-1]. *)
Definition plan_wall (bs : list Brick) (envWidth envHeight wallWidth : Q) :=
  match calculateWallStrides bs (seq 0 (length bs)) envWidth envHeight wallWidth with
  | None => None
  | Some (h, ss, es) => Some (map (map (fun l => let b := deref h l in
        (id b, strideIndex b, orderInStride b))) ss, es)
  end.

(** A sample wall: the stretcher bond layout of a 650 x 130 wall (two
    courses, seven bricks). *)
Definition sample_wall : heap :=
  match generateInitialBrickLayout stretcher 650 130 with
  | Some bs => bs
  | None => []
  end.

(** Two full bricks stacked at x = 0. *)
Definition sample_stack : heap :=
  [mkBrick 0 0 full 210 (-1) (-1) "a"%string;
   mkBrick 0 COURSE_HEIGHT full 210 (-1) (-1) "b"%string].

(** ** Properties used in the statements about the generator *)

(** Consecutive bricks of a course are one head joint apart. *)
Fixpoint joints_ok (bs : list Brick) : Prop :=
  match bs with
  | a :: ((b :: _) as t) => x b == x a + len a + HEAD_JOINT /\ joints_ok t
  | _ => True
  end.

(** The last brick of a course ends at the wall edge, or at most one head
    joint short of it. *)
Definition end_ok (wallWidth : Q) (bs : list Brick) : Prop :=
  let lb := last bs brick0 in
  x lb + len lb == wallWidth \/
  (0 < wallWidth - (x lb + len lb) /\ wallWidth - (x lb + len lb) <= HEAD_JOINT).

(** (type, x, y, length) of the two bricks of each course of a 150mm wall. *)
Definition narrow_course (bondType : BondType) (c : nat) : list (BrickType * Q * Q * Q) :=
  let yc := inject_Z (Z.of_nat c) * COURSE_HEIGHT in
  let half_then_cut := [(half, 0, yc, 100); (custom_end, 110, yc, 40)] in
  match bondType with
  | stretcher => half_then_cut
  | english_cross =>
    match Nat.modulo c 4 with
    | 1%nat | 3%nat => [(custom_40, 0, yc, 40); (half, 50, yc, 100)]
    | _ => half_then_cut
    end
  | flemish =>
    if Nat.eqb (Nat.modulo c 2) 0 then half_then_cut
    else [(custom_45, 0, yc, 45); (custom_end, 55, yc, 95)]
  end.

Definition brick_shape (b : Brick) : BrickType * Q * Q * Q := (type b, x b, y b, len b).

(** ** Notions used in the statements about the planner *)

(** The content of a committed copy: [{...b}] with [strideIndex] and
    then [orderInStride] assigned. *)
Fixpoint with_order (j : nat) (bs : list Brick) : list Brick :=
  match bs with
  | [] => []
  | b :: bs' => set_orderInStride (Z.of_nat j) b :: with_order (S j) bs'
  end.

Definition stamp (k : Z) (bs : list Brick) : list Brick :=
  with_order 0 (map (set_strideIndex k) bs).

(** The input bricks have pairwise-distinct ids. *)
Fixpoint distinct_ids (bs : list Brick) : bool :=
  match bs with
  | [] => true
  | b :: bs' => negb (existsb (fun c => String.eqb (id b) (id c)) bs') && distinct_ids bs'
  end.

(** Every input location is an object of the store. *)
Definition locs_valid (h0 : heap) (allWallBricks : list loc) : bool :=
  forallb (fun l => Nat.ltb l (length h0)) allWallBricks.

(** Ids committed before stride [k], as the planner's set holds them. *)
Definition placed_before (k : nat) (resolved : list (list Brick)) : list string :=
  fold_left set_add (concat (map (map id) (firstn k resolved))) [].

(** (y ascending, then x ascending). *)
Definition yx_le (a b : Brick) : Prop :=
  y a < y b \/ (y a == y b /\ x a <= x b).

(** Order-preserving sublists. *)
Inductive subseq {A} : list A -> list A -> Prop :=
| subseq_nil : subseq [] []
| subseq_skip a l1 l2 : subseq l1 l2 -> subseq l1 (a :: l2)
| subseq_take a l1 l2 : subseq l1 l2 -> subseq (a :: l1) (a :: l2).

(** The invariant of the planning loop on the store [h0], for the input
    locations [allWallBricks]: the store only grows; the counter is the
    number of strides; strides hold fresh locations; the id set is that
    of the committed bricks; and stride [k] holds the stamped copies of
    the bricks [choose_stride] picks from the bricks not committed before
    it, its envelope recorded under key [k]. *)
Definition plan_inv (envWidth envHeight wallWidth : Q) (allWallBricks : list loc)
    (h0 : heap) (st : PlanState) : Prop :=
  let allv := map (deref h0) allWallBricks in
  let resolved := map (map (deref (heap_of st))) (strides st) in
  (exists ext, heap_of st = h0 ++ ext) /\
  counter st = Z.of_nat (length (strides st)) /\
  (forall s l, In s (strides st) -> In l s ->
     (length h0 <= l /\ l < length (heap_of st))%nat) /\
  placed st = fold_left set_add (concat (map (map id) resolved)) [] /\
  incl (placed st) (map id allv) /\
  (NoDup (map id allv) -> NoDup (concat (map (map id) resolved))) /\
  (forall k s, nth_error resolved k = Some s ->
     exists u0 urest,
       filter (fun b => negb (set_has (placed_before k resolved) (id b))) allv = u0 :: urest /\
       let best := choose_stride envWidth envHeight wallWidth allv
                     (placed_before k resolved) u0 urest in
       s = stamp (Z.of_nat k) (bricks best) /\
       rec_get (envelopes st) (Z.of_nat k) = Some (envelope_of envWidth envHeight best)).

(** Spec reading of a support total (section 4.3: true geometric overlap,
    no sub-span counted twice): the length of the brick's span covered
    by the union of the supports' spans, by a sweep over the supports
    sorted by left edge. *)
Definition covered_length (brick : Brick) (supports : list Brick) : Q :=
  let brickEndX := x brick + len brick in
  fst (fold_left
         (fun acc s =>
            let '(total, reach) := acc in
            let st := Qmax (x s) reach in
            let en := Qmin (x s + len s) brickEndX in
            (if Qlt_bool st en then total + (en - st) else total, Qmax reach en))
         (sort_by (fun a b => x a - x b) supports) (0, x brick)).

(** ** Callers and helpers *)

(** Separation of two bricks of the layout, the first before the second:
    the same course, at least a head joint apart, or a course higher. *)
Definition laid_before (a b : Brick) : Prop :=
  (y a == y b /\ x a + len a + HEAD_JOINT <= x b) \/ y a + COURSE_HEIGHT <= y b.

Definition generate_and_plan (bondType : BondType) (wallWidth wallHeight envWidth envHeight : Q) :=
  match generateInitialBrickLayout bondType wallWidth wallHeight with
  | None => None
  | Some bs =>
    match calculateWallStrides bs (seq 0 (length bs)) envWidth envHeight wallWidth with
    | None => None
    | Some r => Some (bs, r)
    end
  end.

(** ** The caller: helpers of [src/components/MasonryWall.tsx] *)

(** [STRIDE_COLORS] *)
Definition STRIDE_COLORS : list string :=
  ["#FFFFFF"; "#FF0000"; "#00FB47"; "#9500B3"; "#787878"; "#03B9D5";
   "#ff7328"; "#ff0"; "#0000FF"; "#fc8eac"]%string.

(** Array read [a[i]] at an integer index: [undefined] ([None]) below 0
    or past the end. *)
Definition js_at {A} (a : list A) (i : Z) : option A :=
  if Z.ltb i 0 then None else nth_error a (Z.to_nat i).

(** [getStrideColor]: [STRIDE_COLORS[strideIndex % STRIDE_COLORS.length]];
    the remainder [%] takes the sign of the dividend, as [Z.rem]. *)
Definition getStrideColor (strideIndex : Z) : option string :=
  js_at STRIDE_COLORS (Z.rem strideIndex (Z.of_nat (length STRIDE_COLORS))).

(** The loop [for (let i = 0; i < sIndex; i++) if (strides[i]) t += strides[i].length * repositionTime]
    shared by [getStrideStartTime] and [calculateBrickTime]. *)
Definition add_previous_strides (strides : list (list Brick)) (repositionTime : Q)
    (sIndex : Z) (t : Q) : Q :=
  fold_left
    (fun totalTime i =>
       match nth_error strides i with
       | Some s => totalTime + inject_Z (Z.of_nat (length s)) * repositionTime
       | None => totalTime
       end)
    (seq 0 (Z.to_nat sIndex)) t.

(** [getStrideStartTime(sIndex)], over the component state [strides] and
    the inputs [repositionTime] and [robotRepositionTime]. *)
Definition getStrideStartTime (strides : list (list Brick))
    (repositionTime robotRepositionTime : Q) (sIndex : Z) : Q :=
  if Z.ltb sIndex 0 || Z.leb (Z.of_nat (length strides)) sIndex then 0
  else
    let startTime := 0 + inject_Z (sIndex + 1) * robotRepositionTime in
    add_previous_strides strides repositionTime sIndex startTime.

(** [calculateBrickTime(brick)]; [None] is [null]. *)
Definition calculateBrickTime (strides : list (list Brick))
    (repositionTime robotRepositionTime : Q) (brick : option Brick) : Q :=
  match brick with
  | None => 0
  | Some b =>
    if Z.ltb (strideIndex b) 0 || Z.ltb (orderInStride b) 0 then 0
    else if Nat.eqb (length strides) 0 ||
            match js_at strides (strideIndex b) with Some _ => false | None => true end
    then 0
    else
      let totalTime := 0 + inject_Z (strideIndex b + 1) * robotRepositionTime in
      let totalTime := add_previous_strides strides repositionTime (strideIndex b) totalTime in
      totalTime + inject_Z (orderInStride b) * repositionTime
  end.

(** [n.toString()] of an integer. *)
Definition js_string_of_Z (n : Z) : string :=
  if Z.ltb n 0 then ("-" ++ string_of_nat (Z.to_nat (- n)))%string
  else string_of_nat (Z.to_nat n).

(** [s.padStart(2, "0")] *)
Definition padStart2 (s : string) : string :=
  match String.length s with
  | O => "00"%string
  | 1%nat => String "0" s
  | _ => s
  end.

(** [formatTime(seconds)] on a whole number of seconds: [Math.floor] of
    a quotient is [Z.div], the remainder [%] is [Z.rem]. *)
Definition formatTime (seconds : Z) : string :=
  let hours := Z.div seconds 3600 in
  let minutes := Z.div (Z.rem seconds 3600) 60 in
  let remainingSeconds := Z.rem seconds 60 in
  if Z.ltb 0 hours then
    (padStart2 (js_string_of_Z hours) ++ ":" ++ padStart2 (js_string_of_Z minutes) ++
     ":" ++ padStart2 (js_string_of_Z remainingSeconds))%string
  else
    (padStart2 (js_string_of_Z minutes) ++ ":" ++
     padStart2 (js_string_of_Z remainingSeconds))%string.

(** A positioned rectangle in pixels: [left], [bottom], [width], [height]. *)
Record Box := mkBox { box_left : Q; box_bottom : Q; box_width : Q; box_height : Q }.

(** The [BrickHitBox] of a rendered brick: its own length and height,
    extended by the head joint on its right unless it reaches the wall's
    right edge, and by the bed joint above it unless its course reaches
    the wall's top. *)
Definition hit_box (wallWidth wallHeight wallScale : Q) (brick : Brick) : Box :=
  let brickLength := len brick in
  let additionalWidth :=
    if Qlt_bool (x brick + brickLength) wallWidth then HEAD_JOINT else 0 in
  let additionalHeight :=
    if Qlt_bool (y brick + COURSE_HEIGHT) wallHeight then COURSE_HEIGHT - BRICK_HEIGHT else 0 in
  mkBox (x brick * wallScale) (y brick * wallScale)
    ((brickLength + additionalWidth) * wallScale) ((BRICK_HEIGHT + additionalHeight) * wallScale).

(** The dotted [StrideEnvelopeDiv] of a highlighted stride. *)
Definition envelope_box (wallScale robotWidth robotHeight : Q) (env : StrideMeta) : Box :=
  mkBox (minX env * wallScale) (minY env * wallScale)
    (robotWidth * wallScale) (robotHeight * wallScale).

(** The [WallOverlaySegment]s dimming the wall around a highlighted
    stride's envelope, pushed in the order of the source. *)
Definition overlay_segments (wallWidth wallHeight wallScale robotWidth robotHeight : Q)
    (env : StrideMeta) : list Box :=
  let wallWidthPx := wallWidth * wallScale in
  let wallHeightPx := wallHeight * wallScale in
  let envLeftPx := minX env * wallScale in
  let envBottomPx := minY env * wallScale in
  let envWidthPx := robotWidth * wallScale in
  let envHeightPx := robotHeight * wallScale in
  let segments := [] in
  let segments :=
    if Qlt_bool 0 envBottomPx
    then segments ++ [mkBox 0 0 wallWidthPx envBottomPx] else segments in
  let segments :=
    if Qlt_bool (envBottomPx + envHeightPx) wallHeightPx
    then segments ++ [mkBox 0 (envBottomPx + envHeightPx) wallWidthPx
                        (wallHeightPx - (envBottomPx + envHeightPx))]
    else segments in
  let segments :=
    if Qlt_bool 0 envLeftPx
    then segments ++ [mkBox 0 envBottomPx envLeftPx envHeightPx] else segments in
  let segments :=
    if Qlt_bool (envLeftPx + envWidthPx) wallWidthPx
    then segments ++ [mkBox (envLeftPx + envWidthPx) envBottomPx
                        (wallWidthPx - (envLeftPx + envWidthPx)) envHeightPx]
    else segments in
  segments.

(** A point lies in a box (left and bottom edges included). *)
Definition in_box (px py : Q) (b : Box) : bool :=
  Qle_bool (box_left b) px && Qlt_bool px (box_left b + box_width b) &&
  Qle_bool (box_bottom b) py && Qlt_bool py (box_bottom b + box_height b).

Fixpoint colon_free (s : string) : bool :=
  match s with
  | EmptyString => true
  | String c s' => negb (Ascii.eqb c ":"%char) && colon_free s'
  end.

Fixpoint digits_val (s : string) (acc : nat) : nat :=
  match s with
  | EmptyString => acc
  | String c s' => digits_val s' (10 * acc + (nat_of_ascii c - 48))
  end.

Definition adjacent_ok (bs : list Brick) : Prop :=
  forall i a b, nth_error bs i = Some a -> nth_error bs (S i) = Some b ->
    y a == y b -> x b == x a + len a + HEAD_JOINT.

(** * Proofs *)

(** ** Comparisons *)

Lemma Qlt_bool_iff a b : Qlt_bool a b = true <-> a < b.
Proof.
  unfold Qlt_bool. rewrite negb_true_iff. split; intro H.
  - apply Qnot_le_lt. intro H'. apply Qle_bool_iff in H'. congruence.
  - destruct (Qle_bool b a) eqn:E; [|reflexivity].
    apply Qle_bool_iff in E. exfalso. apply (Qlt_not_le a b); assumption.
Qed.

Lemma Qlt_bool_false a b : Qlt_bool a b = false -> b <= a.
Proof.
  intro H. apply Qnot_lt_le. intro H'. apply Qlt_bool_iff in H'. congruence.
Qed.

Lemma Qle_bool_false a b : Qle_bool a b = false -> b < a.
Proof.
  intro H. apply Qnot_le_lt. intro H'. apply Qle_bool_iff in H'. congruence.
Qed.

Ltac qprops :=
  repeat match goal with
  | H : Qle_bool _ _ = true |- _ => apply Qle_bool_iff in H
  | H : Qle_bool _ _ = false |- _ => apply Qle_bool_false in H
  | H : Qlt_bool _ _ = true |- _ => apply Qlt_bool_iff in H
  | H : Qlt_bool _ _ = false |- _ => apply Qlt_bool_false in H
  | H : Qeq_bool _ _ = true |- _ => apply Qeq_bool_iff in H
  | H : Qeq_bool _ _ = false |- _ => apply Qeq_bool_neq in H
  end.

Ltac split_ifs :=
  repeat match goal with
  | |- context [if ?b then _ else _] => destruct b eqn:?
  end.

Example gen_test1 :
  option_map (map (fun b => (x b, len b)))
    (generateInitialBrickLayout stretcher 500 130) =
  Some [(0, 210); (220, 210); (440, 60); (0, 100); (110, 210); (330, 100); (440, 60)].
Proof. vm_compute. reflexivity. Qed.

(** ** Generator: brick selection *)

Definition choice_ok (choose : nat -> Q -> option (BrickType * Q)) : Prop :=
  forall idx rem, 0 < rem ->
    exists t l, choose idx rem = Some (t, l) /\ 0 < l /\ l <= rem /\
                (40 <= l \/ l == rem).

Lemma course_choice_ok bondType courseIndex :
  choice_ok (course_choice bondType courseIndex).
Proof.
  intros idx rem Hrem.
  destruct bondType; simpl;
    unfold stretcher_choice, english_cross_choice, flemish_choice;
    split_ifs; qprops; eexists _, _; (split; [reflexivity|]);
    unfold FULL_BRICK_LENGTH, HALF_BRICK_LENGTH, CUSTOM_BRICK_ECB1_LENGTH,
      CUSTOM_BRICK_FLEMISH_HEADER_LENGTH in *;
    repeat split; first [lra | (left; lra) | (right; reflexivity)].
Qed.

Section Course.

Variables (choose : nat -> Q -> option (BrickType * Q)) (wallWidth yc : Q)
  (courseIndex : nat).
Hypothesis choose_ok : choice_ok choose.

Lemma lay_course_done fuel cx idx :
  wallWidth <= cx ->
  lay_course (S fuel) choose wallWidth yc courseIndex cx idx = Some [].
Proof.
  intro H. simpl. destruct (Qlt_bool cx wallWidth) eqn:E; [|reflexivity].
  qprops. lra.
Qed.

Lemma lay_course_total : forall fuel cx idx,
  wallWidth - cx < 50 * inject_Z (Z.of_nat fuel) ->
  exists bs, lay_course (S fuel) choose wallWidth yc courseIndex cx idx = Some bs.
Proof.
  induction fuel as [|fuel IH]; intros cx idx Hf.
  - exists []. apply lay_course_done. change (inject_Z (Z.of_nat 0)) with 0 in Hf. lra.
  - remember (S fuel) as f eqn:Ef. simpl.
    destruct (Qlt_bool cx wallWidth) eqn:E; [|eauto].
    destruct (Qle_bool (wallWidth - cx) 0) eqn:E2; [eauto|].
    qprops. destruct (choose_ok idx (wallWidth - cx)) as (t & l & Hc & Hl0 & Hl1 & Hl2);
      [lra|]. rewrite Hc.
    destruct (Qlt_bool (cx + l) wallWidth) eqn:E3; qprops.
    + subst f. rewrite Nat2Z.inj_succ in Hf. unfold Z.succ in Hf.
      rewrite inject_Z_plus in Hf. change (inject_Z 1) with 1 in Hf.
      destruct (IH (cx + l + HEAD_JOINT) (S idx)) as [bs Hbs].
      { unfold HEAD_JOINT. destruct Hl2; lra. }
      rewrite Hbs. eauto.
    + subst f. rewrite lay_course_done by lra. eauto.
Qed.

Lemma lay_course_shape : forall fuel cx idx bs,
  lay_course fuel choose wallWidth yc courseIndex cx idx = Some bs ->
  match bs with
  | [] => wallWidth <= cx
  | b :: _ => x b == cx /\ cx < wallWidth /\ joints_ok bs /\ end_ok wallWidth bs /\
              Forall (fun b => y b = yc) bs
  end.
Proof.
  induction fuel as [|fuel IH]; intros cx idx bs H; [discriminate|].
  simpl in H. destruct (Qlt_bool cx wallWidth) eqn:E;
    [|injection H as <-; qprops; assumption].
  destruct (Qle_bool (wallWidth - cx) 0) eqn:E2;
    [injection H as <-; qprops; lra|].
  qprops. destruct (choose_ok idx (wallWidth - cx)) as (t & l & Hc & Hl0 & Hl1 & Hl2);
    [lra|]. rewrite Hc in H.
  destruct (lay_course fuel choose wallWidth yc courseIndex
              (if Qlt_bool (cx + l) wallWidth then cx + l + HEAD_JOINT else cx + l)
              (S idx)) as [rest|] eqn:Er; [|discriminate].
  injection H as <-. apply IH in Er. simpl x. split; [reflexivity|]. split; [assumption|].
  destruct (Qlt_bool (cx + l) wallWidth) eqn:E3; qprops.
  - destruct rest as [|b' rest].
    + split; [exact I|]. split; [|constructor; [reflexivity|constructor]].
      unfold end_ok; simpl. right. unfold HEAD_JOINT in *. lra.
    + destruct Er as (Hx & Hlt & Hj & He & Hy). split; [split; [exact Hx|exact Hj]|].
      split; [exact He|constructor; [reflexivity|exact Hy]].
  - destruct rest as [|b' rest].
    + split; [exact I|]. split; [|constructor; [reflexivity|constructor]].
      unfold end_ok; simpl. left. lra.
    + exfalso. destruct Er as (_ & Hlt & _). lra.
Qed.

End Course.

(** [course_fuel] is enough for a course. *)
Lemma course_bricks_total bondType wallWidth courseIndex :
  exists bs, course_bricks bondType wallWidth courseIndex = Some bs.
Proof.
  unfold course_bricks, course_fuel. apply lay_course_total; [apply course_choice_ok|].
  set (q := wallWidth / 50).
  assert (Hq : wallWidth == 50 * q) by (unfold q; field).
  assert (Hc := Qle_ceiling q).
  assert (Hz : (Qceiling q <= Z.of_nat (Z.to_nat (Qceiling q)))%Z) by lia.
  rewrite Zle_Qle in Hz.
  rewrite Nat2Z.inj_succ. unfold Z.succ. rewrite inject_Z_plus. change (inject_Z 1) with 1.
  lra.
Qed.

Lemma lay_courses_spec bondType wallWidth : forall cs,
  exists courses, lay_courses bondType wallWidth cs = Some (concat courses) /\
    Forall2 (fun c course => course_bricks bondType wallWidth c = Some course) cs courses.
Proof.
  induction cs as [|c cs IH].
  - exists []. split; [reflexivity|constructor].
  - destruct (course_bricks_total bondType wallWidth c) as [bs Hbs].
    destruct IH as (courses & Hl & Hf).
    exists (bs :: courses). simpl. rewrite Hbs, Hl. split; [reflexivity|].
    constructor; assumption.
Qed.

Lemma Forall2_nth_error_r {A B} (R : A -> B -> Prop) : forall l1 l2 i b,
  Forall2 R l1 l2 -> nth_error l2 i = Some b ->
  exists a, nth_error l1 i = Some a /\ R a b.
Proof.
  intros l1 l2 i b H. revert i.
  induction H as [|a b' l1 l2 Hab _ IH]; intros [|i] Hi; simpl in *; try discriminate.
  - injection Hi as <-. eauto.
  - eauto.
Qed.

Lemma course_bricks_narrow bondType courseIndex :
  option_map (map brick_shape) (course_bricks bondType 150 courseIndex) =
  Some (narrow_course bondType courseIndex).
Proof.
  unfold course_bricks, narrow_course. cbv zeta.
  generalize (inject_Z (Z.of_nat courseIndex) * COURSE_HEIGHT). intro yc.
  destruct bondType; unfold course_choice.
  - destruct (Nat.eqb (Nat.modulo courseIndex 2) 0); cbv -[brick_id]; reflexivity.
  - assert (Hm := Nat.mod_upper_bound courseIndex 4 ltac:(lia)).
    destruct (Nat.modulo courseIndex 4) as [|[|[|[|m]]]]; [| | | |lia];
      cbv -[brick_id]; reflexivity.
  - destruct (Nat.eqb (Nat.modulo courseIndex 2) 0); cbv -[brick_id]; reflexivity.
Qed.

Lemma lay_courses_nonpositive_width bondType wallWidth : forall cs,
  wallWidth <= 0 -> lay_courses bondType wallWidth cs = Some [].
Proof.
  induction cs as [|c cs IH]; intro Hw; [reflexivity|].
  simpl. unfold course_bricks, course_fuel. rewrite lay_course_done by lra.
  rewrite IH by assumption. reflexivity.
Qed.

Lemma numCourses_nonpositive wallHeight :
  wallHeight <= 0 -> Z.to_nat (numCourses wallHeight) = 0%nat.
Proof.
  intro Hh. unfold numCourses.
  assert (Hq : wallHeight / COURSE_HEIGHT == wallHeight * (2 # 125))
    by (unfold COURSE_HEIGHT; field).
  assert (Hf := Qfloor_le (wallHeight / COURSE_HEIGHT)).
  assert (Hz : (Qfloor (wallHeight / COURSE_HEIGHT) <= 0)%Z)
    by (rewrite Zle_Qle; change (inject_Z 0) with 0; lra).
  lia.
Qed.

(** ** Lists, sorting and sublists *)

Lemma insert_by_perm {A} (cmp : A -> A -> Q) a : forall l,
  Permutation (insert_by cmp a l) (a :: l).
Proof.
  induction l as [|b l IH]; simpl; [auto|].
  destruct (Qlt_bool (cmp a b) 0); [auto|].
  rewrite IH. apply perm_swap.
Qed.

Lemma sort_by_perm_acc {A} (cmp : A -> A -> Q) : forall l acc,
  Permutation (fold_left (fun acc a => insert_by cmp a acc) l acc) (rev l ++ acc).
Proof.
  induction l as [|a l IH]; intros acc; simpl; [auto|].
  rewrite IH, insert_by_perm, <- app_assoc. simpl.
  apply Permutation_app_head.
  apply Permutation_refl.
Qed.

Lemma sort_by_perm {A} (cmp : A -> A -> Q) l : Permutation (sort_by cmp l) l.
Proof.
  unfold sort_by. rewrite sort_by_perm_acc, app_nil_r.
  symmetry; apply Permutation_rev.
Qed.

Section InsertSorted.
Variables (A : Type) (cmp : A -> A -> Q) (R : A -> A -> Prop).
Hypothesis R_lt : forall a b, Qlt_bool (cmp a b) 0 = true -> R a b.
Hypothesis R_ge : forall a b, Qlt_bool (cmp a b) 0 = false -> R b a.

Lemma insert_by_hd a b : forall l,
  HdRel R b l -> R b a -> HdRel R b (insert_by cmp a l).
Proof.
  intros [|c l] Hh Hba; simpl; [auto|].
  destruct (Qlt_bool (cmp a c) 0); auto.
  inversion Hh; auto.
Qed.

Lemma insert_by_sorted a : forall l, Sorted R l -> Sorted R (insert_by cmp a l).
Proof.
  induction l as [|b l IH]; intros Hs; simpl; [auto|].
  case_eq (Qlt_bool (cmp a b) 0); intros Hc.
  - constructor; auto.
  - inversion Hs; subst. constructor; auto.
    apply insert_by_hd; auto.
Qed.

Lemma sort_by_sorted l : Sorted R (sort_by cmp l).
Proof.
  unfold sort_by.
  assert (H : forall acc, Sorted R acc ->
    Sorted R (fold_left (fun acc a => insert_by cmp a acc) l acc)).
  { induction l as [|a l IH]; intros acc Hacc; simpl; auto.
    apply IH, insert_by_sorted, Hacc. }
  apply H; constructor.
Qed.
End InsertSorted.

Lemma subseq_nil_l {A} : forall l : list A, subseq [] l.
Proof. induction l; constructor; auto. Qed.

Lemma subseq_incl {A} : forall l1 l2 : list A, subseq l1 l2 -> incl l1 l2.
Proof.
  intros l1 l2 H; induction H; intros z Hz; simpl in *; auto.
  destruct Hz; auto.
Qed.

Lemma subseq_map {A B} (f : A -> B) : forall l1 l2,
  subseq l1 l2 -> subseq (map f l1) (map f l2).
Proof.
  intros l1 l2 H; induction H; simpl;
    [apply subseq_nil | apply subseq_skip | apply subseq_take]; auto.
Qed.

Lemma subseq_NoDup {A} : forall l1 l2 : list A, subseq l1 l2 -> NoDup l2 -> NoDup l1.
Proof.
  intros l1 l2 H; induction H; intros Hn; auto.
  - inversion Hn; auto.
  - inversion Hn; subst. constructor; auto.
    intros Hin; apply H2, (subseq_incl _ _ H), Hin.
Qed.

Lemma subseq_StronglySorted {A} (R : A -> A -> Prop) : forall l1 l2,
  subseq l1 l2 -> StronglySorted R l2 -> StronglySorted R l1.
Proof.
  intros l1 l2 H; induction H; intros Hs; auto.
  - inversion Hs; auto.
  - inversion Hs; subst. constructor; auto.
    rewrite Forall_forall in *. intros z Hz; apply H3, (subseq_incl _ _ H), Hz.
Qed.

(** A filtering fold that appends: its result extends the accumulator by a
    subsequence of the input. *)
Lemma fold_append_subseq {A} (P : list A -> A -> bool) : forall l t0,
  exists s, fold_left (fun t a => if P t a then t ++ [a] else t) l t0 = t0 ++ s /\
            subseq s l.
Proof.
  induction l as [|a l IH]; intros t0; simpl.
  - exists []; rewrite app_nil_r; split; constructor.
  - destruct (P t0 a).
    + destruct (IH (t0 ++ [a])) as [s [Hs Hsub]].
      exists (a :: s); rewrite Hs, <- app_assoc; split; [reflexivity|apply subseq_take; auto].
    + destruct (IH t0) as [s [Hs Hsub]]. exists s; split; [auto|apply subseq_skip; auto].
Qed.

(** ** The (y, x) order *)

Lemma yx_cmp_lt a b : Qlt_bool (yx_cmp a b) 0 = true -> yx_le a b.
Proof.
  unfold yx_cmp, yx_le; rewrite Qlt_bool_iff.
  case_eq (Qeq_bool (y a) (y b)); intros He; simpl; intros H.
  - right; split; [apply Qeq_bool_eq; auto | lra].
  - left; lra.
Qed.

Lemma yx_cmp_ge a b : Qlt_bool (yx_cmp a b) 0 = false -> yx_le b a.
Proof.
  unfold yx_cmp, yx_le; intros H; apply Qlt_bool_false in H.
  case_eq (Qeq_bool (y a) (y b)); intros He; rewrite He in H; simpl in H.
  - apply Qeq_bool_eq in He. right; split; lra.
  - apply Qeq_bool_neq in He. left.
    destruct (Qlt_le_dec (y b) (y a)) as [Hl|Hl]; auto.
    exfalso; apply He; lra.
Qed.

Lemma yx_le_trans a b c : yx_le a b -> yx_le b c -> yx_le a c.
Proof. unfold yx_le; intros [H1|[H1 H2]] [H3|[H3 H4]]; lra. Qed.

Lemma sort_yx_strongly_sorted l : StronglySorted yx_le (sort_by yx_cmp l).
Proof.
  apply Sorted_StronglySorted; [exact yx_le_trans|].
  apply sort_by_sorted; [exact yx_cmp_lt | exact yx_cmp_ge].
Qed.

(** ** The id set *)

Lemma set_has_In s i : set_has s i = true <-> In i s.
Proof.
  unfold set_has; rewrite existsb_exists; split.
  - intros [j [Hj He]]; apply String.eqb_eq in He; subst; auto.
  - intros H; exists i; split; auto; apply String.eqb_refl.
Qed.

Lemma set_has_false s i : set_has s i = false <-> ~ In i s.
Proof.
  rewrite <- set_has_In; destruct (set_has s i); split; congruence.
Qed.

Lemma set_add_In s i j : In j (set_add s i) <-> In j s \/ j = i.
Proof.
  unfold set_add; case_eq (set_has s i); intros H.
  - apply set_has_In in H; split; [auto|intros [|]; subst; auto].
  - rewrite in_app_iff; simpl; split; intros [|]; intuition.
Qed.

Lemma fold_set_add_In : forall l s j,
  In j (fold_left set_add l s) <-> In j s \/ In j l.
Proof.
  induction l as [|i l IH]; intros s j; simpl; [tauto|].
  rewrite IH, set_add_In; intuition.
Qed.

Lemma set_add_NoDup s i : NoDup s -> NoDup (set_add s i).
Proof.
  unfold set_add; case_eq (set_has s i); intros H Hn; auto.
  apply set_has_false in H.
  apply NoDup_app; auto.
  - repeat constructor; auto.
  - intros z Hz [Hz'|[]]; subst; auto.
Qed.

Lemma fold_set_add_NoDup : forall l s, NoDup s -> NoDup (fold_left set_add l s).
Proof.
  induction l as [|i l IH]; intros s Hs; simpl; auto.
  apply IH, set_add_NoDup, Hs.
Qed.

Lemma fold_set_add_length : forall l s,
  (length s <= length (fold_left set_add l s))%nat.
Proof.
  induction l as [|i l IH]; intros s; simpl; [lia|].
  rewrite <- IH. unfold set_add; destruct (set_has s i); [lia|].
  rewrite length_app; simpl; lia.
Qed.

Lemma fold_set_add_grows i l s : ~ In i s ->
  (S (length s) <= length (fold_left set_add (i :: l) s))%nat.
Proof.
  intros Hi; simpl; rewrite <- fold_set_add_length.
  unfold set_add; apply set_has_false in Hi; rewrite Hi, length_app; simpl; lia.
Qed.

Lemma fold_set_add_distinct : forall l s,
  NoDup (s ++ l) -> fold_left set_add l s = s ++ l.
Proof.
  induction l as [|i l IH]; intros s Hn; simpl; [rewrite app_nil_r; auto|].
  assert (Hi : ~ In i s).
  { intros Hin. apply NoDup_remove_2 in Hn. apply Hn, in_app_iff; auto. }
  unfold set_add; apply set_has_false in Hi; rewrite Hi.
  rewrite IH, <- app_assoc; auto. rewrite <- app_assoc; auto.
Qed.

(** ** Sums *)

Lemma fold_sum_right {A} (f : A -> Q) : forall l a,
  fold_left (fun acc s => acc + f s) l a == a + fold_right Qplus 0 (map f l).
Proof.
  induction l as [|b l IH]; intros a; simpl; [lra|].
  rewrite IH; lra.
Qed.

Lemma sum_perm {A} (f : A -> Q) l l' : Permutation l l' ->
  fold_right Qplus 0 (map f l) == fold_right Qplus 0 (map f l').
Proof.
  intros H; induction H; simpl; lra.
Qed.

Lemma subseq_filter {A} (f : A -> bool) : forall l, subseq (filter f l) l.
Proof.
  induction l as [|a l IH]; simpl; [constructor|].
  destruct (f a); [apply subseq_take | apply subseq_skip]; auto.
Qed.

Lemma fold_left_ext' {A B} (f g : A -> B -> A) : (forall a b, f a b = g a b) ->
  forall l a, fold_left f l a = fold_left g l a.
Proof. intros H l; induction l; intros a'; simpl; [auto|rewrite H; auto]. Qed.

(** ** The support test *)

Lemma existsb_id_map (t : list Brick) (i : string) :
  existsb (fun b => String.eqb (id b) i) t = existsb (fun j => String.eqb j i) (map id t).
Proof. induction t; simpl; [auto|rewrite IHt; auto]. Qed.

(** [isBrickSupported] reads the brick's x, y and length and the ids of the
    tentative stride only. *)
Lemma isBrickSupported_ext b b' p t t' all :
  x b = x b' -> y b = y b' -> len b = len b' -> map id t = map id t' ->
  isBrickSupported b p t all = isBrickSupported b' p t' all.
Proof.
  intros Hx Hy Hl Ht.
  assert (H1 : forall c, is_supporting b p t c = is_supporting b' p t' c).
  { intros c; unfold is_supporting.
    rewrite Hx, Hy, Hl, !existsb_id_map, Ht; reflexivity. }
  assert (H2 : forall s, support_overlap b s = support_overlap b' s).
  { intros s; unfold support_overlap; rewrite Hx, Hl; reflexivity. }
  unfold isBrickSupported. rewrite Hy, Hl, (filter_ext _ _ H1).
  rewrite (fold_left_ext' (fun acc s => acc + support_overlap b s)
                          (fun acc s => acc + support_overlap b' s));
    [reflexivity | intros a s; rewrite H2; reflexivity].
Qed.

(** ** The admission loop *)

Lemma admit_bricks_subseq all p pot : subseq (admit_bricks all p pot) pot.
Proof.
  unfold admit_bricks.
  destruct (fold_append_subseq (fun t a => isBrickSupported a p t all) pot [])
    as [s [Hs Hsub]].
  rewrite Hs; exact Hsub.
Qed.

Lemma admit_bricks_supported all p pot : forall j b,
  nth_error (admit_bricks all p pot) j = Some b ->
  isBrickSupported b p (firstn j (admit_bricks all p pot)) all = true.
Proof.
  unfold admit_bricks.
  assert (H : forall l t0,
    (forall j b, nth_error t0 j = Some b -> isBrickSupported b p (firstn j t0) all = true) ->
    let t := fold_left (fun temp b => if isBrickSupported b p temp all
                                     then temp ++ [b] else temp) l t0 in
    forall j b, nth_error t j = Some b -> isBrickSupported b p (firstn j t) all = true).
  { induction l as [|a l IH]; intros t0 H0; simpl; auto.
    case_eq (isBrickSupported a p t0 all); intros Ha; apply IH; auto.
    intros j b Hj.
    destruct (Nat.lt_ge_cases j (length t0)) as [Hlt|Hge].
    - rewrite nth_error_app1 in Hj by lia.
      rewrite firstn_app, (proj2 (Nat.sub_0_le j (length t0))) by lia.
      rewrite app_nil_r; auto.
    - rewrite nth_error_app2 in Hj by lia.
      destruct (j - length t0)%nat as [|m] eqn:Hm; [|destruct m; discriminate].
      simpl in Hj; injection Hj as <-.
      replace j with (length t0) by lia.
      rewrite firstn_app, Nat.sub_diag, firstn_all; simpl; rewrite app_nil_r; auto. }
  apply H. intros j b Hj; destruct j; discriminate.
Qed.

(** ** The stride choice *)

Section Choice.
Variables (envWidth envHeight wallWidth : Q) (allv : list Brick) (p : list string)
  (u0 : Brick) (urest : list Brick).

Lemma choose_stride_cases :
  let best := choose_stride envWidth envHeight wallWidth allv p u0 urest in
  best = mkOption (clampX envWidth wallWidth (x u0)) (y u0) [u0] 1 \/
  (startY best = bottom_most_y u0 urest /\ bricks best <> [] /\
   bricks best = admit_bricks allv p (sort_by yx_cmp
     (filter (contained_in envWidth envHeight (startX best) (bottom_most_y u0 urest))
        (u0 :: urest)))).
Proof.
  intros best; subst best; unfold choose_stride.
  set (bot := bottom_most_y u0 urest).
  set (inv := fun o : StrideOption => o = mkOption (-1) (-1) [] (-1) \/
    (startY o = bot /\ count o = Z.of_nat (length (bricks o)) /\
     bricks o = admit_bricks allv p (sort_by yx_cmp
       (filter (contained_in envWidth envHeight (startX o) bot) (u0 :: urest))))).
  assert (H : forall xs o, inv o -> inv (fold_left
     (evaluate_candidate envWidth envHeight allv p (u0 :: urest) bot) xs o)).
  { induction xs as [|sx xs IH]; intros o Ho; simpl; auto.
    apply IH. unfold evaluate_candidate.
    destruct (Z.ltb _ _); auto. right; simpl; auto. }
  specialize (H (candidate_xs envWidth wallWidth bot (u0 :: urest))
                (mkOption (-1) (-1) [] (-1)) (or_introl eq_refl)).
  destruct (fold_left _ _ _) as [sx sy bs n]; simpl.
  case_eq (Z.leb n 0); intros Hn; [left; reflexivity|right].
  destruct H as [H|[H1 [H2 H3]]]; [injection H as _ _ _ ->; discriminate|].
  simpl in *; repeat split; auto.
  intros ->; simpl in H2; subst; discriminate.
Qed.

Lemma chosen_props :
  let best := choose_stride envWidth envHeight wallWidth allv p u0 urest in
  bricks best <> [] /\
  incl (bricks best) (u0 :: urest) /\
  (NoDup (map id (u0 :: urest)) -> NoDup (map id (bricks best))) /\
  StronglySorted yx_le (bricks best) /\
  (best = mkOption (clampX envWidth wallWidth (x u0)) (y u0) [u0] 1 \/
   (startY best = bottom_most_y u0 urest /\
    (forall j b, nth_error (bricks best) j = Some b ->
       isBrickSupported b p (firstn j (bricks best)) allv = true) /\
    (forall b, In b (bricks best) ->
       contained_in envWidth envHeight (startX best) (startY best) b = true))).
Proof.
  cbv zeta.
  destruct (choose_stride_cases) as [Hf|[Hy [Hne Hb]]].
  - rewrite Hf; simpl. repeat split.
    + discriminate.
    + intros z [<-|[]]; simpl; auto.
    + intros _; constructor; [intros []|constructor].
    + repeat constructor.
    + left; reflexivity.
  - set (best := choose_stride envWidth envHeight wallWidth allv p u0 urest) in *.
    set (f := contained_in envWidth envHeight (startX best) (bottom_most_y u0 urest)) in Hb.
    assert (Hsub := admit_bricks_subseq allv p (sort_by yx_cmp (filter f (u0 :: urest)))).
    rewrite <- Hb in Hsub.
    assert (Hin : forall b, In b (bricks best) -> In b (filter f (u0 :: urest))).
    { intros b Hbin. apply (Permutation_in _ (sort_by_perm yx_cmp _)).
      apply (subseq_incl _ _ Hsub), Hbin. }
    repeat split; auto.
    + intros b Hbin. apply Hin, filter_In in Hbin. tauto.
    + intros Hn. apply (subseq_NoDup _ _ (subseq_map id _ _ Hsub)).
      apply (Permutation_NoDup (Permutation_map id (Permutation_sym (sort_by_perm _ _)))).
      apply (subseq_NoDup _ _ (subseq_map id _ _ (subseq_filter f _))), Hn.
    + apply (subseq_StronglySorted _ _ _ Hsub), sort_yx_strongly_sorted.
    + right; repeat split; auto.
      * intros j b Hj. rewrite Hb in Hj |- *. apply admit_bricks_supported, Hj.
      * intros b Hbin. rewrite Hy. apply Hin, filter_In in Hbin. tauto.
Qed.

End Choice.

(** ** The store and the commit step *)

Lemma upd_app_r h1 : forall h2 l f, (length h1 <= l)%nat ->
  upd (h1 ++ h2) l f = h1 ++ upd h2 (l - length h1)%nat f.
Proof.
  induction h1 as [|b h1 IH]; intros h2 l f Hl; simpl.
  - rewrite Nat.sub_0_r; reflexivity.
  - destruct l as [|l]; simpl in Hl; [lia|].
    rewrite IH by lia; reflexivity.
Qed.

Lemma deref_app_l h1 h2 l : (l < length h1)%nat -> deref (h1 ++ h2) l = deref h1 l.
Proof. intros Hl; unfold deref; apply app_nth1, Hl. Qed.

Lemma deref_app_r h1 h2 i : deref (h1 ++ h2) (length h1 + i)%nat = deref h2 i.
Proof.
  unfold deref; rewrite app_nth2 by lia. f_equal; lia.
Qed.

Lemma deref_app_len h1 b h2 : deref (h1 ++ b :: h2) (length h1) = b.
Proof. unfold deref; rewrite app_nth2, Nat.sub_diag by lia; reflexivity. Qed.

Lemma mark_stride_app k : forall mid pre p,
  mark_stride (pre ++ mid) p k (seq (length pre) (length mid)) =
  (pre ++ map (set_strideIndex k) mid, fold_left set_add (map id mid) p).
Proof.
  induction mid as [|b mid IH]; intros pre p; simpl; [rewrite app_nil_r; reflexivity|].
  rewrite upd_app_r, Nat.sub_diag by lia. simpl.
  rewrite deref_app_len.
  replace (pre ++ set_strideIndex k b :: mid) with ((pre ++ [set_strideIndex k b]) ++ mid)
    by (rewrite <- app_assoc; reflexivity).
  replace (S (length pre)) with (length (pre ++ [set_strideIndex k b]))
    by (rewrite length_app; simpl; lia).
  rewrite IH, <- app_assoc; reflexivity.
Qed.

Lemma mark_order_app : forall mid pre j,
  mark_order (pre ++ mid) (seq (length pre) (length mid)) j = pre ++ with_order j mid.
Proof.
  induction mid as [|b mid IH]; intros pre j; simpl; [rewrite app_nil_r; reflexivity|].
  rewrite upd_app_r, Nat.sub_diag by lia. simpl.
  replace (pre ++ set_orderInStride (Z.of_nat j) b :: mid)
    with ((pre ++ [set_orderInStride (Z.of_nat j) b]) ++ mid)
    by (rewrite <- app_assoc; reflexivity).
  replace (S (length pre)) with (length (pre ++ [set_orderInStride (Z.of_nat j) b]))
    by (rewrite length_app; simpl; lia).
  rewrite IH, <- app_assoc; reflexivity.
Qed.

Lemma length_with_order : forall bs j, length (with_order j bs) = length bs.
Proof. induction bs; intros j; simpl; auto. Qed.

Lemma length_stamp k bs : length (stamp k bs) = length bs.
Proof. unfold stamp; rewrite length_with_order, length_map; reflexivity. Qed.

(** The commit step in closed form: the copies, stamped, are appended to
    the store; nothing else in the store changes. *)
Lemma commit_closed envWidth envHeight st best : bricks best <> [] ->
  commit envWidth envHeight st best =
  mkState (heap_of st ++ stamp (counter st) (bricks best))
    (strides st ++ [seq (length (heap_of st)) (length (bricks best))])
    (rec_set (envelopes st) (counter st) (envelope_of envWidth envHeight best))
    (fold_left set_add (map id (bricks best)) (placed st)) (counter st + 1).
Proof.
  intros Hne. unfold commit. rewrite length_seq.
  destruct (bricks best) as [|b bs] eqn:Hb; [congruence|]. simpl Nat.ltb. cbv iota.
  rewrite <- Hb. rewrite mark_stride_app.
  rewrite <- (length_map (set_strideIndex (counter st)) (bricks best)).
  rewrite mark_order_app. reflexivity.
Qed.

(** ** Stamped copies *)

Lemma nth_error_with_order : forall bs i j,
  nth_error (with_order i bs) j =
  option_map (set_orderInStride (Z.of_nat (i + j))) (nth_error bs j).
Proof.
  induction bs as [|b bs IH]; intros i j; simpl; [destruct j; reflexivity|].
  destruct j as [|j]; simpl; [rewrite Nat.add_0_r; reflexivity|].
  rewrite IH; do 3 f_equal; lia.
Qed.

Lemma nth_error_stamp k bs j :
  nth_error (stamp k bs) j =
  option_map (fun b => set_orderInStride (Z.of_nat j) (set_strideIndex k b)) (nth_error bs j).
Proof.
  unfold stamp; rewrite nth_error_with_order, nth_error_map.
  destruct (nth_error bs j); reflexivity.
Qed.

Lemma In_stamp k bs c : In c (stamp k bs) ->
  exists b j, In b bs /\ c = set_orderInStride (Z.of_nat j) (set_strideIndex k b).
Proof.
  intros Hc. apply In_nth_error in Hc as [j Hj].
  rewrite nth_error_stamp in Hj.
  destruct (nth_error bs j) eqn:Hb; [|discriminate].
  injection Hj as <-. exists b, j; split; [eapply nth_error_In; eauto|reflexivity].
Qed.

Lemma map_id_with_order : forall bs j, map id (with_order j bs) = map id bs.
Proof. induction bs; intros j; simpl; [auto|rewrite IHbs; auto]. Qed.

Lemma map_id_stamp k bs : map id (stamp k bs) = map id bs.
Proof.
  unfold stamp; rewrite map_id_with_order, map_map; reflexivity.
Qed.

Lemma In_with_order_xy k : forall bs j c, In c (with_order j (map (set_strideIndex k) bs)) ->
  exists b, In b bs /\ x c = x b /\ y c = y b.
Proof.
  induction bs as [|b bs IH]; intros j c Hc; simpl in Hc; [contradiction|].
  destruct Hc as [<-|Hc]; [exists b; simpl; auto|].
  destruct (IH _ _ Hc) as [b' [H1 H2]]; exists b'; simpl; auto.
Qed.

Lemma stamp_sorted k : forall bs, StronglySorted yx_le bs -> Sorted yx_le (stamp k bs).
Proof.
  intros bs Hs; apply StronglySorted_Sorted.
  unfold stamp; generalize 0%nat.
  induction Hs as [|b bs Hs IH Hf]; intros j; simpl; constructor; auto.
  apply Forall_forall; intros c Hc.
  destruct (In_with_order_xy _ _ _ _ Hc) as [b' [Hb' [Ex Ey]]].
  rewrite Forall_forall in Hf. apply Hf in Hb'.
  unfold yx_le in *; simpl; rewrite Ex, Ey; exact Hb'.
Qed.

(** ** The envelope record *)

Lemma rec_get_set m k v k' :
  rec_get (rec_set m k v) k' = if Z.eqb k' k then Some v else rec_get m k'.
Proof.
  induction m as [|[k1 v1] m IH]; simpl; [reflexivity|].
  case_eq (Z.eqb k k1); intros Hk; simpl.
  - apply Z.eqb_eq in Hk; subst. destruct (Z.eqb k' k1); reflexivity.
  - rewrite IH. case_eq (Z.eqb k' k); intros Hk'; [|reflexivity].
    apply Z.eqb_eq in Hk'; subst; rewrite Hk; reflexivity.
Qed.

(** ** The frontier *)

Lemma fold_min_le : forall r m,
  fold_left (fun m b => Qmin m (y b)) r m <= m /\
  (forall b, In b r -> fold_left (fun m b => Qmin m (y b)) r m <= y b).
Proof.
  induction r as [|b r IH]; intros m; simpl; [split; [apply Qle_refl|tauto]|].
  destruct (IH (Qmin m (y b))) as [H1 H2].
  assert (Hm := Q.le_min_l m (y b)). assert (Hb := Q.le_min_r m (y b)).
  split; [eapply Qle_trans; eauto|].
  intros c [<-|Hc]; [eapply Qle_trans; eauto|auto].
Qed.

Lemma fold_min_attained : forall r m,
  fold_left (fun m b => Qmin m (y b)) r m == m \/
  exists b, In b r /\ fold_left (fun m b => Qmin m (y b)) r m == y b.
Proof.
  induction r as [|b r IH]; intros m; simpl; [left; apply Qeq_refl|].
  destruct (IH (Qmin m (y b))) as [H|[c [Hc H]]].
  - destruct (Q.min_spec m (y b)) as [[_ E]|[_ E]];
      [left | right; exists b; split; auto]; eapply Qeq_trans; eauto.
  - right; exists c; auto.
Qed.

Lemma bottom_most_y_le u0 r b : In b (u0 :: r) -> bottom_most_y u0 r <= y b.
Proof.
  unfold bottom_most_y; destruct (fold_min_le r (y u0)) as [H1 H2].
  intros [<-|Hb]; auto.
Qed.

Lemma bottom_most_y_attained u0 r : exists b, In b (u0 :: r) /\ bottom_most_y u0 r == y b.
Proof.
  unfold bottom_most_y; destruct (fold_min_attained r (y u0)) as [H|[b [Hb H]]].
  - exists u0; simpl; auto.
  - exists b; simpl; auto.
Qed.

Lemma map_deref_seq : forall N h, map (deref (h ++ N)) (seq (length h) (length N)) = N.
Proof.
  induction N as [|b N IH]; intros h; simpl; [reflexivity|].
  rewrite deref_app_len. f_equal.
  replace (h ++ b :: N) with ((h ++ [b]) ++ N) by (rewrite <- app_assoc; reflexivity).
  replace (S (length h)) with (length (h ++ [b])) by (rewrite length_app; simpl; lia).
  apply IH.
Qed.

(** ** The planning loop *)

Section Loop.
Variables (envWidth envHeight wallWidth : Q) (allWallBricks : list loc) (h0 : heap).
Hypothesis Hall : Forall (fun l => (l < length h0)%nat) allWallBricks.

Lemma allv_ext ext :
  map (deref (h0 ++ ext)) allWallBricks = map (deref h0) allWallBricks.
Proof.
  apply map_ext_in; intros l Hl. apply deref_app_l.
  rewrite Forall_forall in Hall; auto.
Qed.

Lemma inv_init : plan_inv envWidth envHeight wallWidth allWallBricks h0 (init_state h0).
Proof.
  unfold plan_inv, init_state; cbv zeta; cbn [heap_of strides envelopes placed counter].
  split; [exists []; rewrite app_nil_r; reflexivity|].
  split; [reflexivity|].
  split; [intros s' l' []|].
  split; [reflexivity|].
  split; [intros i []|].
  split; [intros _; constructor|].
  intros k s' Hk; destruct k; discriminate.
Qed.

Lemma inv_step st st' :
  plan_inv envWidth envHeight wallWidth allWallBricks h0 st ->
  iteration envWidth envHeight wallWidth allWallBricks st = Some st' ->
  plan_inv envWidth envHeight wallWidth allWallBricks h0 st'.
Proof.
  unfold plan_inv; cbv zeta.
  intros [[ext Hh] [Hc [Hl [Hp [Hincl [Hnd Hk]]]]]] Hit.
  set (allv := map (deref h0) allWallBricks) in *.
  set (RS := map (map (deref (heap_of st))) (strides st)) in *.
  unfold iteration, unplaced_of in Hit. rewrite Hh, allv_ext in Hit. fold allv in Hit.
  destruct (filter _ allv) as [|u0 urest] eqn:Hu; [discriminate|].
  injection Hit as <-.
  destruct (chosen_props envWidth envHeight wallWidth allv (placed st) u0 urest)
    as [Hne [Hsub [Hnodup [Hsorted _]]]].
  set (best := choose_stride envWidth envHeight wallWidth allv (placed st) u0 urest) in *.
  rewrite commit_closed by exact Hne.
  set (N := stamp (counter st) (bricks best)).
  cbn [heap_of strides envelopes placed counter].
  assert (Hres : map (map (deref (heap_of st ++ N)))
                   (strides st ++ [seq (length (heap_of st)) (length (bricks best))]) = RS ++ [N]).
  { rewrite map_app; f_equal.
    - apply map_ext_in; intros s Hs; apply map_ext_in; intros l Hls.
      apply deref_app_l, (Hl s l Hs Hls).
    - simpl; f_equal. rewrite <- (length_stamp (counter st) (bricks best)).
      exact (map_deref_seq N (heap_of st)). }
  rewrite Hres.
  assert (Hlen0 : (length h0 <= length (heap_of st))%nat) by (rewrite Hh, length_app; lia).
  assert (Hfresh : forall b, In b (bricks best) -> ~ In (id b) (placed st)).
  { intros b Hb Hin. apply Hsub in Hb. rewrite <- Hu in Hb.
    apply filter_In in Hb as [_ Hb]. apply set_has_In in Hin. rewrite Hin in Hb; discriminate. }
  assert (HRSlen : length RS = length (strides st)) by apply length_map.
  split; [exists (ext ++ N); rewrite Hh, app_assoc; reflexivity|].
  split; [rewrite length_app, Hc; simpl; lia|].
  split.
  { intros s l Hs Hls. rewrite length_app. apply in_app_iff in Hs as [Hs|[<-|[]]].
    + destruct (Hl s l Hs Hls); lia.
    + apply in_seq in Hls. unfold N; rewrite length_stamp; lia. }
  split; [|split; [|split]].
  - rewrite map_app, concat_app, fold_left_app, <- Hp; simpl.
    rewrite app_nil_r; unfold N; rewrite map_id_stamp; reflexivity.
  - intros i Hi. apply fold_set_add_In in Hi as [Hi|Hi]; [apply Hincl, Hi|].
    apply in_map_iff in Hi as [b [<- Hb]]. apply in_map.
    apply Hsub in Hb; rewrite <- Hu in Hb. apply filter_In in Hb; tauto.
  - intros HN. rewrite map_app, concat_app; simpl; rewrite app_nil_r.
    unfold N; rewrite map_id_stamp. apply NoDup_app.
    + apply Hnd, HN.
    + apply Hnodup. rewrite <- Hu.
      apply (subseq_NoDup _ _ (subseq_map id _ _ (subseq_filter _ _)) HN).
    + intros i Hi Hi'. apply in_map_iff in Hi' as [b [<- Hb]].
      apply (Hfresh b Hb). rewrite Hp. apply fold_set_add_In; auto.
  - intros k s Hks.
    destruct (Nat.lt_ge_cases k (length RS)) as [Hlt|Hge].
    + rewrite nth_error_app1 in Hks by lia.
      destruct (Hk k s Hks) as [v0 [vrest [Hv Hrest]]].
      assert (Hpb : placed_before k (RS ++ [N]) = placed_before k RS).
      { unfold placed_before. rewrite firstn_app.
        replace (k - length RS)%nat with 0%nat by lia. rewrite app_nil_r; reflexivity. }
      rewrite Hpb. exists v0, vrest; split; [exact Hv|].
      cbv zeta in Hrest |- *. destruct Hrest as [Hs He]; split; [exact Hs|].
      rewrite rec_get_set.
      replace (Z.eqb (Z.of_nat k) (counter st)) with false; [exact He|].
      symmetry; apply Z.eqb_neq. rewrite Hc; lia.
    + rewrite nth_error_app2 in Hks by lia.
      destruct (k - length RS)%nat as [|m] eqn:Hm; [|destruct m; discriminate].
      simpl in Hks; injection Hks as <-.
      assert (Hk' : k = length RS) by lia.
      assert (Hpb : placed_before k (RS ++ [N]) = placed st).
      { unfold placed_before. rewrite Hk', firstn_app, Nat.sub_diag, firstn_all.
        simpl; rewrite app_nil_r; symmetry; exact Hp. }
      rewrite Hpb. exists u0, urest; split; [exact Hu|].
      cbv zeta; fold best.
      assert (Hck : counter st = Z.of_nat k) by (rewrite Hc, Hk', HRSlen; reflexivity).
      split; [unfold N; rewrite Hck; reflexivity|].
      rewrite rec_get_set, <- Hck, Z.eqb_refl; reflexivity.
Qed.

Lemma inv_progress st st' :
  plan_inv envWidth envHeight wallWidth allWallBricks h0 st ->
  iteration envWidth envHeight wallWidth allWallBricks st = Some st' ->
  (length (placed st) < length (placed st'))%nat.
Proof.
  unfold plan_inv; cbv zeta.
  intros [[ext Hh] _] Hit.
  unfold iteration, unplaced_of in Hit. rewrite Hh, allv_ext in Hit.
  destruct (filter _ _) as [|u0 urest] eqn:Hu; [discriminate|].
  injection Hit as <-.
  destruct (chosen_props envWidth envHeight wallWidth (map (deref h0) allWallBricks)
              (placed st) u0 urest) as [Hne [Hsub _]].
  rewrite commit_closed by exact Hne; cbn [placed].
  destruct (bricks _) as [|c cs] eqn:Hb; [congruence|]. simpl map.
  apply fold_set_add_grows.
  intros Hin. assert (Hc : In c (u0 :: urest)) by (apply Hsub; left; reflexivity).
  rewrite <- Hu in Hc. apply filter_In in Hc as [_ Hc].
  apply set_has_In in Hin. rewrite Hin in Hc; discriminate.
Qed.

Lemma inv_placed_bound st :
  plan_inv envWidth envHeight wallWidth allWallBricks h0 st ->
  (length (placed st) <= length allWallBricks)%nat.
Proof.
  unfold plan_inv; cbv zeta. intros [_ [_ [_ [Hp [Hincl _]]]]].
  rewrite <- (length_map (deref h0) allWallBricks), <- (length_map id (map (deref h0) allWallBricks)).
  apply NoDup_incl_length; auto.
  rewrite Hp. apply fold_set_add_NoDup; constructor.
Qed.

Lemma reachable_inv st :
  reachable envWidth envHeight wallWidth allWallBricks h0 st ->
  plan_inv envWidth envHeight wallWidth allWallBricks h0 st.
Proof.
  intros H; induction H; [apply inv_init|].
  eapply inv_step; eauto.
Qed.

Lemma iteration_none st :
  iteration envWidth envHeight wallWidth allWallBricks st = None ->
  unplaced_of allWallBricks st = [].
Proof. unfold iteration; destruct (unplaced_of _ _); [auto|discriminate]. Qed.

Lemma plan_loop_some : forall fuel st,
  reachable envWidth envHeight wallWidth allWallBricks h0 st ->
  (length allWallBricks - length (placed st) < fuel)%nat ->
  exists st', plan_loop envWidth envHeight wallWidth allWallBricks fuel st = Some st' /\
    reachable envWidth envHeight wallWidth allWallBricks h0 st' /\
    (loop_cond allWallBricks st' = false \/ unplaced_of allWallBricks st' = []).
Proof.
  induction fuel as [|fuel IH]; intros st Hr Hf; [lia|].
  simpl. case_eq (loop_cond allWallBricks st); intros Hc.
  - case_eq (iteration envWidth envHeight wallWidth allWallBricks st).
    + intros st' Hit. apply IH; [eapply reach_step; eauto|].
      assert (Hinv := reachable_inv _ Hr).
      assert (H1 := inv_progress _ _ Hinv Hit).
      unfold loop_cond in Hc; apply Nat.ltb_lt in Hc. lia.
    + intros Hit. exists st; repeat split; auto. right; apply iteration_none, Hit.
  - exists st; repeat split; auto.
Qed.

Lemma plan_final :
  exists st, plan_loop envWidth envHeight wallWidth allWallBricks
               (S (length allWallBricks)) (init_state h0) = Some st /\
    reachable envWidth envHeight wallWidth allWallBricks h0 st /\
    (loop_cond allWallBricks st = false \/ unplaced_of allWallBricks st = []).
Proof. apply plan_loop_some; [constructor|simpl; lia]. Qed.

End Loop.

Lemma distinct_ids_NoDup : forall bs, distinct_ids bs = true -> NoDup (map id bs).
Proof.
  induction bs as [|b bs IH]; simpl; intros H; [constructor|].
  apply andb_true_iff in H as [H1 H2]. constructor; auto.
  intros Hin. apply in_map_iff in Hin as [c [Hc Hin]].
  apply negb_true_iff in H1. rewrite <- not_true_iff_false, existsb_exists in H1.
  apply H1; exists c; split; auto. rewrite Hc; apply String.eqb_refl.
Qed.

Lemma locs_valid_Forall h0 all : locs_valid h0 all = true ->
  Forall (fun l => (l < length h0)%nat) all.
Proof.
  unfold locs_valid; intros H; apply Forall_forall; intros l Hl.
  rewrite forallb_forall in H; apply Nat.ltb_lt, H, Hl.
Qed.

Lemma length_concat_nonempty {A} : forall l : list (list A),
  (forall s, In s l -> s <> []) -> (length l <= length (concat l))%nat.
Proof.
  induction l as [|s l IH]; intros H; simpl; [lia|].
  rewrite length_app. destruct s as [|a s]; [exfalso; exact (H [] (or_introl eq_refl) eq_refl)|].
  simpl; specialize (IH (fun s' Hs' => H s' (or_intror Hs'))); lia.
Qed.

(** The facts of the final state used by the statements about the output. *)
Lemma final_state envWidth envHeight wallWidth allWallBricks h0 :
  locs_valid h0 allWallBricks = true ->
  exists st,
    calculateWallStrides h0 allWallBricks envWidth envHeight wallWidth =
      Some (heap_of st, strides st, envelopes st) /\
    plan_inv envWidth envHeight wallWidth allWallBricks h0 st /\
    (loop_cond allWallBricks st = false \/ unplaced_of allWallBricks st = []).
Proof.
  intros Hv; apply locs_valid_Forall in Hv.
  destruct (plan_final envWidth envHeight wallWidth allWallBricks h0 Hv)
    as [st [Hpl [Hr Hexit]]].
  exists st; split; [unfold calculateWallStrides; rewrite Hpl; reflexivity|].
  split; [apply (reachable_inv _ _ _ _ _ Hv), Hr | exact Hexit].
Qed.

(** A stride of the output: the stamped copies of the bricks chosen from
    those not committed before it. *)
Lemma output_stride envWidth envHeight wallWidth allWallBricks h0 st k s :
  plan_inv envWidth envHeight wallWidth allWallBricks h0 st ->
  nth_error (map (map (deref (heap_of st))) (strides st)) k = Some s ->
  exists u0 urest,
    let allv := map (deref h0) allWallBricks in
    let p := placed_before k (map (map (deref (heap_of st))) (strides st)) in
    let best := choose_stride envWidth envHeight wallWidth allv p u0 urest in
    filter (fun b => negb (set_has p (id b))) allv = u0 :: urest /\
    s = stamp (Z.of_nat k) (bricks best) /\
    rec_get (envelopes st) (Z.of_nat k) = Some (envelope_of envWidth envHeight best).
Proof.
  intros Hinv Hk. unfold plan_inv in Hinv; cbv zeta in Hinv.
  destruct Hinv as [_ [_ [_ [_ [_ [_ H]]]]]]. apply H, Hk.
Qed.

Lemma output_stride_nonempty envWidth envHeight wallWidth allWallBricks h0 st s :
  plan_inv envWidth envHeight wallWidth allWallBricks h0 st ->
  In s (map (map (deref (heap_of st))) (strides st)) -> s <> [].
Proof.
  intros Hinv Hs. apply In_nth_error in Hs as [k Hk].
  destruct (output_stride _ _ _ _ _ _ _ _ Hinv Hk) as [u0 [urest [_ [-> _]]]].
  destruct (chosen_props envWidth envHeight wallWidth (map (deref h0) allWallBricks)
     (placed_before k (map (map (deref (heap_of st))) (strides st))) u0 urest) as [Hne _].
  intros He. apply Hne, length_zero_iff_nil. rewrite <- (length_stamp (Z.of_nat k)), He.
  reflexivity.
Qed.

Lemma nth_error_output envWidth envHeight wallWidth allWallBricks h0 st k s j b :
  plan_inv envWidth envHeight wallWidth allWallBricks h0 st ->
  nth_error (map (map (deref (heap_of st))) (strides st)) k = Some s ->
  nth_error s j = Some b ->
  exists u0 urest b0,
    let allv := map (deref h0) allWallBricks in
    let p := placed_before k (map (map (deref (heap_of st))) (strides st)) in
    let best := choose_stride envWidth envHeight wallWidth allv p u0 urest in
    filter (fun b => negb (set_has p (id b))) allv = u0 :: urest /\
    s = stamp (Z.of_nat k) (bricks best) /\
    nth_error (bricks best) j = Some b0 /\
    b = set_orderInStride (Z.of_nat j) (set_strideIndex (Z.of_nat k) b0).
Proof.
  intros Hinv Hk Hj.
  destruct (output_stride _ _ _ _ _ _ _ _ Hinv Hk) as [u0 [urest [Hu [Hs _]]]].
  exists u0, urest. rewrite Hs, nth_error_stamp in Hj.
  destruct (nth_error _ j) as [b0|] eqn:Hb0; [|discriminate].
  injection Hj as <-. exists b0; cbv zeta; auto.
Qed.

Lemma iteration_placed_grows envWidth envHeight wallWidth allWallBricks st st' :
  iteration envWidth envHeight wallWidth allWallBricks st = Some st' ->
  incl (placed st) (placed st').
Proof.
  unfold iteration. destruct (unplaced_of _ _) as [|u0 urest]; [discriminate|].
  intros Hit; injection Hit as <-.
  match goal with |- context [commit _ _ st ?b] => set (best := b) end.
  unfold commit.
  destruct (Nat.ltb _ _); [|intros i Hi; exact Hi].
  destruct (mark_stride _ _ _ _) as [h2 p2] eqn:Hm; cbn [placed].
  revert Hm. generalize (heap_of st ++ bricks best) (placed st).
  generalize (seq (length (heap_of st)) (length (bricks best))).
  induction l as [|l ls IH]; intros h p Hm i Hi; simpl in Hm.
  - injection Hm as _ <-; exact Hi.
  - eapply IH; [exact Hm|]. apply set_add_In; auto.
Qed.

Lemma unplaced_of_inv envWidth envHeight wallWidth allWallBricks h0 st :
  Forall (fun l => (l < length h0)%nat) allWallBricks ->
  plan_inv envWidth envHeight wallWidth allWallBricks h0 st ->
  unplaced_of allWallBricks st =
  filter (fun b => negb (set_has (placed st) (id b))) (map (deref h0) allWallBricks).
Proof.
  intros Hv Hinv. unfold plan_inv in Hinv; cbv zeta in Hinv.
  destruct Hinv as [[ext Hh] _].
  unfold unplaced_of; rewrite Hh, allv_ext by exact Hv; reflexivity.
Qed.

Lemma Qle_bool_compat a b b' : b == b' -> Qle_bool a b = Qle_bool a b'.
Proof.
  intros E. case_eq (Qle_bool a b'); intros H.
  - apply Qle_bool_iff. apply Qle_bool_iff in H. rewrite E; exact H.
  - apply Qle_bool_false in H. apply not_true_iff_false. rewrite Qle_bool_iff.
    rewrite E. apply Qlt_not_le, H.
Qed.

(** ** Claims about the generator *)

(** C6 (amended): for a positive wall width, [generateInitialBrickLayout]
    emits the courses in order; each course starts at x = 0, lies at its
    course height, has consecutive bricks exactly one [HEAD_JOINT] apart,
    and its last brick ends at the wall's right edge or, when the head
    joint after it already reaches the edge, short of it by a gap of more
    than 0 and at most [HEAD_JOINT]. *)
Theorem generator_course_layout bondType wallWidth wallHeight :
  0 < wallWidth ->
  exists courses,
    generateInitialBrickLayout bondType wallWidth wallHeight = Some (concat courses) /\
    List.length courses = Z.to_nat (numCourses wallHeight) /\
    forall c course, nth_error courses c = Some course ->
      course <> [] /\ x (hd brick0 course) == 0 /\
      Forall (fun b => y b = inject_Z (Z.of_nat c) * COURSE_HEIGHT) course /\
      joints_ok course /\ end_ok wallWidth course.
Proof.
  intro Hw. unfold generateInitialBrickLayout.
  destruct (lay_courses_spec bondType wallWidth
              (seq 0 (Z.to_nat (numCourses wallHeight)))) as (courses & Hl & Hf).
  exists courses. split; [exact Hl|]. split.
  { apply Forall2_length in Hf. rewrite <- Hf. apply length_seq. }
  intros c course Hc.
  destruct (Forall2_nth_error_r _ _ _ _ _ Hf Hc) as (c' & Hc' & Hb).
  rewrite nth_error_seq in Hc'.
  destruct (Nat.ltb c (Z.to_nat (numCourses wallHeight))); [|discriminate].
  injection Hc' as <-. simpl in Hb.
  apply (lay_course_shape _ _ _ _ (course_choice_ok bondType c)) in Hb.
  destruct course as [|b rest]; [lra|].
  destruct Hb as (Hx & _ & Hj & He & Hy).
  split; [discriminate|]. split; [exact Hx|]. split; [exact Hy|]. split; assumption.
Qed.

Lemma generator_course_layout_witness :
  0 < 2300 /\
  exists courses,
    generateInitialBrickLayout flemish 2300 2000 = Some (concat courses) /\
    List.length courses = Z.to_nat (numCourses 2000) /\
    forall c course, nth_error courses c = Some course ->
      course <> [] /\ x (hd brick0 course) == 0 /\
      Forall (fun b => y b = inject_Z (Z.of_nat c) * COURSE_HEIGHT) course /\
      joints_ok course /\ end_ok 2300 course.
Proof.
  split; [reflexivity|]. apply generator_course_layout. reflexivity.
Defined.

(** C6 counterexample: a stretcher wall 215 wide, one course high: the
    course holds one full brick ending at 210; the 5mm left after it are
    absorbed by the head joint, so the course does not reach 215. *)
Lemma generator_course_stops_short :
  match generateInitialBrickLayout stretcher 215 100 with
  | Some [b] => x b + len b == 210 /\ ~ (x b + len b == 215)
  | _ => False
  end.
Proof.
  vm_compute. split; [reflexivity | intro H; discriminate H].
Qed.

(** C7 (amended): on a wall 150 wide, every course of every bond holds
    exactly two bricks one head joint apart, the second ending at 150:
    a half brick at 0 and a 40 cut piece at 110 (stretcher; english cross
    courses 0 and 2 mod 4; flemish even courses), a custom_40 at 0 and a
    half brick at 50 (english cross courses 1 and 3 mod 4), or a custom_45
    at 0 and a 95 cut piece at 55 (flemish odd courses). *)
Theorem narrow_wall_courses bondType wallHeight :
  exists bricks,
    generateInitialBrickLayout bondType 150 wallHeight = Some bricks /\
    map brick_shape bricks =
      flat_map (narrow_course bondType) (seq 0 (Z.to_nat (numCourses wallHeight))).
Proof.
  unfold generateInitialBrickLayout.
  destruct (lay_courses_spec bondType 150
              (seq 0 (Z.to_nat (numCourses wallHeight)))) as (courses & Hl & Hf).
  exists (concat courses). split; [exact Hl|].
  clear Hl. induction Hf as [|c course cs courses Hc _ IH]; [reflexivity|].
  simpl. rewrite map_app, IH.
  assert (Hn := course_bricks_narrow bondType c). rewrite Hc in Hn.
  injection Hn as ->. reflexivity.
Qed.

(** C7 counterexample: a stretcher wall 150 wide and one course high
    gets a half brick and a 40 cut piece, not a single 150 cut piece. *)
Lemma narrow_wall_not_single_cut :
  option_map (map brick_shape) (generateInitialBrickLayout stretcher 150 (125 # 2)) =
  Some [(half, 0, 0 * COURSE_HEIGHT, 100); (custom_end, 110, 0 * COURSE_HEIGHT, 40)].
Proof. vm_compute. reflexivity. Qed.

(** C8: with a zero or negative wall width or height the generator
    returns no brick, and the planner on an empty brick list returns no
    stride and no envelope; both return normally. *)
Theorem degenerate_inputs_empty bondType wallWidth wallHeight h0 envWidth envHeight :
  (wallWidth <= 0 \/ wallHeight <= 0) ->
  generateInitialBrickLayout bondType wallWidth wallHeight = Some [] /\
  calculateWallStrides h0 [] envWidth envHeight wallWidth = Some (h0, [], []).
Proof.
  intro H. split; [|reflexivity].
  unfold generateInitialBrickLayout. destruct H as [Hw|Hh].
  - apply lay_courses_nonpositive_width. assumption.
  - rewrite numCourses_nonpositive by assumption. reflexivity.
Qed.

Lemma degenerate_inputs_empty_witness :
  ((0:Q) <= 0 \/ (2000:Q) <= 0) /\
  generateInitialBrickLayout english_cross 0 2000 = Some [] /\
  calculateWallStrides [] [] 800 1300 0 = Some ([], [], []).
Proof.
  split; [left; apply Qle_refl|].
  apply degenerate_inputs_empty. left; apply Qle_refl.
Defined.

(** ** Claims about the planner *)

(** C1: on input bricks with pairwise-distinct ids, [calculateWallStrides]
    terminates (it returns within its bound of one more iteration than
    there are bricks), and the ids of the bricks of the returned strides,
    in order, are a permutation of the input ids: each input brick is in
    exactly one stride, once. There are at most as many strides (loop
    iterations) as bricks. *)
Theorem calculateWallStrides_complete h0 allWallBricks envWidth envHeight wallWidth :
  locs_valid h0 allWallBricks = true ->
  distinct_ids (map (deref h0) allWallBricks) = true ->
  exists h ss es,
    calculateWallStrides h0 allWallBricks envWidth envHeight wallWidth = Some (h, ss, es) /\
    Permutation (map id (concat (map (map (deref h)) ss)))
                (map id (map (deref h0) allWallBricks)) /\
    (length ss <= length allWallBricks)%nat.
Proof.
  intros Hv Hd. apply distinct_ids_NoDup in Hd.
  destruct (final_state envWidth envHeight wallWidth _ _ Hv) as [st [Hcalc [Hinv Hexit]]].
  exists (heap_of st), (strides st), (envelopes st); split; [exact Hcalc|].
  assert (Hne := (fun s => output_stride_nonempty _ _ _ _ _ _ s Hinv)).
  apply locs_valid_Forall in Hv.
  unfold plan_inv in Hinv; cbv zeta in Hinv.
  destruct Hinv as [[ext Hh] [_ [_ [Hp [Hincl [Hnd _]]]]]].
  set (allv := map (deref h0) allWallBricks) in *.
  set (RS := map (map (deref (heap_of st))) (strides st)) in *.
  specialize (Hnd Hd).
  assert (HpC : placed st = concat (map (map id) RS)).
  { rewrite Hp. apply (fold_set_add_distinct _ []), Hnd. }
  rewrite concat_map.
  assert (Hperm : Permutation (concat (map (map id) RS)) (map id allv)).
  { apply NoDup_Permutation; auto. intros i; split; [rewrite <- HpC; apply Hincl|].
    rewrite <- HpC. destruct Hexit as [Hc|Hu].
    - unfold loop_cond in Hc. apply Nat.ltb_ge in Hc.
      revert i. apply NoDup_length_incl; auto.
      + rewrite Hp; apply fold_set_add_NoDup; constructor.
      + unfold allv; rewrite !length_map; exact Hc.
    - intros Hi. apply in_map_iff in Hi as [b [<- Hb]].
      unfold unplaced_of in Hu. rewrite Hh, allv_ext in Hu by exact Hv. fold allv in Hu.
      apply set_has_In. destruct (set_has (placed st) (id b)) eqn:E; [reflexivity|].
      assert (Hf : In b (filter (fun b => negb (set_has (placed st) (id b))) allv)).
      { apply filter_In; rewrite E; auto. }
      rewrite Hu in Hf; destruct Hf. }
  split; [exact Hperm|].
  apply Permutation_length in Hperm. unfold allv in Hperm; rewrite !length_map in Hperm.
  rewrite <- concat_map, length_map in Hperm.
  assert (H1 := length_concat_nonempty RS Hne).
  unfold RS in H1 at 1; rewrite length_map in H1. lia.
Qed.

Lemma calculateWallStrides_complete_witness :
  exists h ss es,
    calculateWallStrides sample_wall (seq 0 (length sample_wall)) 800 1300 650 = Some (h, ss, es) /\
    Permutation (map id (concat (map (map (deref h)) ss)))
                (map id (map (deref sample_wall) (seq 0 (length sample_wall)))) /\
    (length ss <= length (seq 0 (length sample_wall)))%nat.
Proof. apply calculateWallStrides_complete; vm_compute; reflexivity. Defined.

(** C2 (amended): every brick committed by [calculateWallStrides] passes
    [isBrickSupported] against what was committed before it: the bricks
    of the earlier strides (the id set [placed_before k]) and the bricks
    before it in its own stride; the exception is a stride made by the
    fallback, the single first uncommitted brick in input order, which
    is committed with no support test. *)
Theorem committed_bricks_supported h0 allWallBricks envWidth envHeight wallWidth :
  locs_valid h0 allWallBricks = true ->
  exists h ss es,
    calculateWallStrides h0 allWallBricks envWidth envHeight wallWidth = Some (h, ss, es) /\
    let allv := map (deref h0) allWallBricks in
    let resolved := map (map (deref h)) ss in
    forall k s, nth_error resolved k = Some s ->
      (forall j b, nth_error s j = Some b ->
         isBrickSupported b (placed_before k resolved) (firstn j s) allv = true) \/
      (exists u0 urest,
         filter (fun b => negb (set_has (placed_before k resolved) (id b))) allv = u0 :: urest /\
         s = stamp (Z.of_nat k) [u0]).
Proof.
  intros Hv.
  destruct (final_state envWidth envHeight wallWidth _ _ Hv) as [st [Hcalc [Hinv _]]].
  exists (heap_of st), (strides st), (envelopes st); split; [exact Hcalc|].
  cbv zeta. intros k s Hk.
  destruct (output_stride _ _ _ _ _ _ _ _ Hinv Hk) as [u0 [urest [Hu [Hs _]]]].
  destruct (chosen_props envWidth envHeight wallWidth (map (deref h0) allWallBricks)
     (placed_before k (map (map (deref (heap_of st))) (strides st))) u0 urest)
    as [_ [_ [_ [_ [Hf|[_ [Hsup _]]]]]]].
  - right; exists u0, urest; split; [exact Hu|]. rewrite Hs, Hf; reflexivity.
  - left. intros j b Hj.
    destruct (nth_error_output _ _ _ _ _ _ _ _ _ _ Hinv Hk Hj)
      as [v0 [vrest [b0 [Hv0 [_ [Hb0 Hb]]]]]].
    rewrite Hu in Hv0; injection Hv0 as <- <-.
    rewrite <- (Hsup j b0 Hb0). rewrite Hb.
    apply isBrickSupported_ext; try reflexivity.
    rewrite Hs, <- !firstn_map, map_id_stamp; reflexivity.
Qed.

Lemma committed_bricks_supported_witness :
  exists h ss es,
    calculateWallStrides sample_wall (seq 0 (length sample_wall)) 800 1300 650 = Some (h, ss, es) /\
    let allv := map (deref sample_wall) (seq 0 (length sample_wall)) in
    let resolved := map (map (deref h)) ss in
    forall k s, nth_error resolved k = Some s ->
      (forall j b, nth_error s j = Some b ->
         isBrickSupported b (placed_before k resolved) (firstn j s) allv = true) \/
      (exists u0 urest,
         filter (fun b => negb (set_has (placed_before k resolved) (id b))) allv = u0 :: urest /\
         s = stamp (Z.of_nat k) [u0]).
Proof. apply committed_bricks_supported; vm_compute; reflexivity. Defined.

(** A lone brick in course 1 is committed (by the fallback) although
    nothing supports it. *)
Lemma unsupported_brick_committed :
  match calculateWallStrides [mkBrick 0 COURSE_HEIGHT full 210 (-1) (-1) "b"%string] [0%nat]
          800 1300 2300 with
  | Some (h, ss, _) =>
      ss = [[1%nat]] /\
      isBrickSupported (deref h 1%nat) [] [] [mkBrick 0 COURSE_HEIGHT full 210 (-1) (-1) "b"%string]
        = false
  | None => False
  end.
Proof. vm_compute. split; reflexivity. Qed.

(** C3 (amended): every brick of a stride lies within the stride's
    envelope, recorded under the stride's index; the exception is a
    stride made by the fallback, the single first uncommitted brick in
    input order, whose envelope is anchored at the brick's clamped x and
    its y whether or not the brick fits in it. *)
Theorem strides_within_envelopes h0 allWallBricks envWidth envHeight wallWidth :
  locs_valid h0 allWallBricks = true ->
  exists h ss es,
    calculateWallStrides h0 allWallBricks envWidth envHeight wallWidth = Some (h, ss, es) /\
    let allv := map (deref h0) allWallBricks in
    let resolved := map (map (deref h)) ss in
    forall k s, nth_error resolved k = Some s ->
      exists env, rec_get es (Z.of_nat k) = Some env /\
      ((forall b, In b s ->
          minX env <= x b /\ x b + len b <= maxX env /\
          minY env <= y b /\ y b + BRICK_HEIGHT <= maxY env) \/
       (exists u0 urest,
          filter (fun b => negb (set_has (placed_before k resolved) (id b))) allv = u0 :: urest /\
          s = stamp (Z.of_nat k) [u0] /\
          env = mkMeta (clampX envWidth wallWidth (x u0)) (y u0)
                  (clampX envWidth wallWidth (x u0) + envWidth) (y u0 + envHeight))).
Proof.
  intros Hv.
  destruct (final_state envWidth envHeight wallWidth _ _ Hv) as [st [Hcalc [Hinv _]]].
  exists (heap_of st), (strides st), (envelopes st); split; [exact Hcalc|].
  cbv zeta. intros k s Hk.
  destruct (output_stride _ _ _ _ _ _ _ _ Hinv Hk) as [u0 [urest [Hu [Hs He]]]].
  eexists; split; [exact He|].
  destruct (chosen_props envWidth envHeight wallWidth (map (deref h0) allWallBricks)
     (placed_before k (map (map (deref (heap_of st))) (strides st))) u0 urest)
    as [_ [_ [_ [_ [Hf|[_ [_ Hin]]]]]]].
  - right; exists u0, urest; split; [exact Hu|]. rewrite Hs, Hf; split; reflexivity.
  - left. intros b Hb. rewrite Hs in Hb.
    apply In_stamp in Hb as [b0 [j [Hb0 ->]]].
    apply Hin in Hb0. unfold contained_in in Hb0.
    apply andb_true_iff in Hb0 as [Hb0 H4]. apply andb_true_iff in Hb0 as [Hb0 H3].
    apply andb_true_iff in Hb0 as [H1 H2].
    apply Qle_bool_iff in H1, H2, H3, H4.
    unfold envelope_of; simpl. repeat split; assumption.
Qed.

Lemma strides_within_envelopes_witness :
  exists h ss es,
    calculateWallStrides sample_wall (seq 0 (length sample_wall)) 800 1300 650 = Some (h, ss, es) /\
    let allv := map (deref sample_wall) (seq 0 (length sample_wall)) in
    let resolved := map (map (deref h)) ss in
    forall k s, nth_error resolved k = Some s ->
      exists env, rec_get es (Z.of_nat k) = Some env /\
      ((forall b, In b s ->
          minX env <= x b /\ x b + len b <= maxX env /\
          minY env <= y b /\ y b + BRICK_HEIGHT <= maxY env) \/
       (exists u0 urest,
          filter (fun b => negb (set_has (placed_before k resolved) (id b))) allv = u0 :: urest /\
          s = stamp (Z.of_nat k) [u0] /\
          env = mkMeta (clampX 800 650 (x u0)) (y u0)
                  (clampX 800 650 (x u0) + 800) (y u0 + 1300))).
Proof. apply strides_within_envelopes; vm_compute; reflexivity. Defined.

(** With a 100 wide envelope, the stride of a full brick is the fallback
    one, and the brick sticks out of its envelope. *)
Lemma brick_outside_envelope :
  match calculateWallStrides [mkBrick 0 0 full 210 (-1) (-1) "a"%string] [0%nat]
          100 1300 2300 with
  | Some (h, ss, es) =>
      ss = [[1%nat]] /\
      exists env, rec_get es 0%Z = Some env /\ maxX env < x (deref h 1%nat) + len (deref h 1%nat)
  | None => False
  end.
Proof. vm_compute. split; [reflexivity|]. eexists; split; reflexivity. Qed.

(** C4 (amended): [isBrickSupported] is true on course 0; elsewhere it is
    true exactly when the sum, over the bricks one course below that
    overlap the brick horizontally and are committed or tentatively
    admitted, of each one's overlap with the brick reaches 0.9 times the
    brick's length. Each support's overlap counts in full, also where two
    supports overlap each other. *)
Theorem isBrickSupported_sums_overlaps brick p t all :
  isBrickSupported brick p t all =
  (Qeq_bool (y brick) 0 ||
   Qle_bool (len brick * (9 # 10))
     (fold_right Qplus 0 (map (support_overlap brick) (filter (is_supporting brick p t) all)))).
Proof.
  unfold isBrickSupported. destruct (Qeq_bool (y brick) 0); [reflexivity|simpl].
  apply Qle_bool_compat.
  rewrite fold_sum_right, sum_perm with (l' := filter (is_supporting brick p t) all)
    by apply sort_by_perm.
  lra.
Qed.

Lemma isBrickSupported_double_counts :
  let s1 := mkBrick 0 0 full 50 (-1) (-1) "s1"%string in
  let s2 := mkBrick 0 0 full 50 (-1) (-1) "s2"%string in
  let b := mkBrick 0 COURSE_HEIGHT full 100 (-1) (-1) "t"%string in
  isBrickSupported b ["s1"; "s2"]%string [] [s1; s2; b] = true /\
  filter (is_supporting b ["s1"; "s2"]%string []) [s1; s2; b] = [s1; s2] /\
  covered_length b [s1; s2] == 50 /\
  covered_length b [s1; s2] < len b * (9 # 10).
Proof. vm_compute. repeat split; reflexivity. Qed.

(** C5: across two successive iterations of the loop, [bottomMostY] (the
    least y of the bricks not yet committed, the y at which the
    candidate envelopes of the iteration are anchored) does not
    decrease. *)
Theorem frontier_nondecreasing envWidth envHeight wallWidth allWallBricks h0 st st' q q' :
  locs_valid h0 allWallBricks = true ->
  reachable envWidth envHeight wallWidth allWallBricks h0 st ->
  iteration envWidth envHeight wallWidth allWallBricks st = Some st' ->
  bottomMostY_of allWallBricks st = Some q ->
  bottomMostY_of allWallBricks st' = Some q' ->
  q <= q'.
Proof.
  intros Hv Hr Hit Hq Hq'. apply locs_valid_Forall in Hv.
  assert (Hinv := reachable_inv _ _ _ _ _ Hv _ Hr).
  assert (Hinv' := inv_step _ _ _ _ _ Hv _ _ Hinv Hit).
  assert (Hgrow := iteration_placed_grows _ _ _ _ _ _ Hit).
  unfold bottomMostY_of in Hq, Hq'.
  destruct (unplaced_of allWallBricks st) as [|u0 r] eqn:Hu; [discriminate|].
  destruct (unplaced_of allWallBricks st') as [|u0' r'] eqn:Hu'; [discriminate|].
  injection Hq as <-; injection Hq' as <-.
  destruct (bottom_most_y_attained u0' r') as [b [Hb Hbq]].
  rewrite Hbq. apply bottom_most_y_le.
  rewrite <- Hu', (unplaced_of_inv _ _ _ _ _ _ Hv Hinv') in Hb.
  rewrite <- Hu, (unplaced_of_inv _ _ _ _ _ _ Hv Hinv).
  apply filter_In in Hb as [Hb Hn]. apply filter_In; split; [exact Hb|].
  apply negb_true_iff, set_has_false. apply negb_true_iff, set_has_false in Hn.
  intros Hin; apply Hn, Hgrow, Hin.
Qed.

Lemma frontier_nondecreasing_witness :
  0 <= COURSE_HEIGHT.
Proof.
  apply (frontier_nondecreasing 100 1300 2300 [0; 1]%nat sample_stack
           (init_state sample_stack)
           (match iteration 100 1300 2300 [0; 1]%nat (init_state sample_stack) with
            | Some st' => st'
            | None => init_state sample_stack
            end)).
  - vm_compute; reflexivity.
  - apply reach_init.
  - vm_compute; reflexivity.
  - vm_compute; reflexivity.
  - vm_compute; reflexivity.
Defined.

(** C9 (amended): the planner never writes to the input objects: every
    location of the input store holds, after planning, the object it held
    before. The locations in the strides are fresh ones, each holding a
    copy of an input brick with [strideIndex] set to the index of its
    stride and [orderInStride] set to its position in that stride. *)
Theorem calculateWallStrides_stamps_copies h0 allWallBricks envWidth envHeight wallWidth :
  locs_valid h0 allWallBricks = true ->
  exists h ss es,
    calculateWallStrides h0 allWallBricks envWidth envHeight wallWidth = Some (h, ss, es) /\
    (forall l, (l < length h0)%nat -> deref h l = deref h0 l) /\
    (forall k s j l, nth_error ss k = Some s -> nth_error s j = Some l ->
       (length h0 <= l)%nat /\
       exists l0, In l0 allWallBricks /\
         deref h l = set_orderInStride (Z.of_nat j) (set_strideIndex (Z.of_nat k) (deref h0 l0))).
Proof.
  intros Hv.
  destruct (final_state envWidth envHeight wallWidth _ _ Hv) as [st [Hcalc [Hinv _]]].
  exists (heap_of st), (strides st), (envelopes st); split; [exact Hcalc|].
  assert (Hinv' := Hinv). unfold plan_inv in Hinv'; cbv zeta in Hinv'.
  destruct Hinv' as [[ext Hh] [_ [Hl _]]].
  split; [intros l Hl0; rewrite Hh; apply deref_app_l, Hl0|].
  intros k s j l Hk Hj.
  split; [apply (Hl s l); [eapply nth_error_In; eauto | eapply nth_error_In; eauto]|].
  assert (Hk' : nth_error (map (map (deref (heap_of st))) (strides st)) k =
                Some (map (deref (heap_of st)) s)) by (rewrite nth_error_map, Hk; reflexivity).
  assert (Hj' : nth_error (map (deref (heap_of st)) s) j = Some (deref (heap_of st) l))
    by (rewrite nth_error_map, Hj; reflexivity).
  destruct (nth_error_output _ _ _ _ _ _ _ _ _ _ Hinv Hk' Hj')
    as [u0 [urest [b0 [Hu [_ [Hb0 Hb]]]]]].
  destruct (chosen_props envWidth envHeight wallWidth (map (deref h0) allWallBricks)
     (placed_before k (map (map (deref (heap_of st))) (strides st))) u0 urest)
    as [_ [Hsub _]].
  apply nth_error_In, Hsub in Hb0. rewrite <- Hu in Hb0.
  apply filter_In in Hb0 as [Hb0 _]. apply in_map_iff in Hb0 as [l0 [<- Hl0]].
  exists l0; split; [exact Hl0 | exact Hb].
Qed.

Lemma calculateWallStrides_stamps_copies_witness :
  exists h ss es,
    calculateWallStrides sample_wall (seq 0 (length sample_wall)) 800 1300 650 = Some (h, ss, es) /\
    (forall l, (l < length sample_wall)%nat -> deref h l = deref sample_wall l) /\
    (forall k s j l, nth_error ss k = Some s -> nth_error s j = Some l ->
       (length sample_wall <= l)%nat /\
       exists l0, In l0 (seq 0 (length sample_wall)) /\
         deref h l = set_orderInStride (Z.of_nat j)
                       (set_strideIndex (Z.of_nat k) (deref sample_wall l0))).
Proof. apply calculateWallStrides_stamps_copies; vm_compute; reflexivity. Defined.

(** The input object keeps its sentinel [strideIndex]; its copy, at the
    fresh location 1, carries the stride index. *)
Lemma calculateWallStrides_input_untouched :
  match calculateWallStrides [mkBrick 0 0 full 210 (-1) (-1) "a"%string] [0%nat]
          800 1300 2300 with
  | Some (h, ss, _) =>
      ss = [[1%nat]] /\ strideIndex (deref h 0%nat) = (-1)%Z /\ strideIndex (deref h 1%nat) = 0%Z
  | None => False
  end.
Proof. vm_compute. repeat split; reflexivity. Qed.

(** C10: every stride of the output is non-empty and has its envelope
    under its index; its bricks are in (y, then x) order; the brick at
    position [j] of stride [k] has [strideIndex = k] and
    [orderInStride = j]. *)
Theorem calculateWallStrides_well_formed h0 allWallBricks envWidth envHeight wallWidth :
  locs_valid h0 allWallBricks = true ->
  exists h ss es,
    calculateWallStrides h0 allWallBricks envWidth envHeight wallWidth = Some (h, ss, es) /\
    forall k s, nth_error ss k = Some s ->
      s <> [] /\
      (exists env, rec_get es (Z.of_nat k) = Some env) /\
      Sorted yx_le (map (deref h) s) /\
      (forall j l, nth_error s j = Some l ->
         strideIndex (deref h l) = Z.of_nat k /\ orderInStride (deref h l) = Z.of_nat j).
Proof.
  intros Hv.
  destruct (final_state envWidth envHeight wallWidth _ _ Hv) as [st [Hcalc [Hinv _]]].
  exists (heap_of st), (strides st), (envelopes st); split; [exact Hcalc|].
  intros k s Hk.
  assert (Hk' : nth_error (map (map (deref (heap_of st))) (strides st)) k =
                Some (map (deref (heap_of st)) s)) by (rewrite nth_error_map, Hk; reflexivity).
  destruct (output_stride _ _ _ _ _ _ _ _ Hinv Hk') as [u0 [urest [Hu [Hs He]]]].
  split.
  { intros ->. exact (output_stride_nonempty _ _ _ _ _ _ [] Hinv (nth_error_In _ _ Hk') eq_refl). }
  split; [eexists; exact He|].
  split.
  { rewrite Hs. apply stamp_sorted.
    apply (chosen_props envWidth envHeight wallWidth _ _ u0 urest). }
  intros j l Hj.
  assert (Hj' : nth_error (map (deref (heap_of st)) s) j = Some (deref (heap_of st) l))
    by (rewrite nth_error_map, Hj; reflexivity).
  destruct (nth_error_output _ _ _ _ _ _ _ _ _ _ Hinv Hk' Hj')
    as [v0 [vrest [b0 [_ [_ [_ Hb]]]]]].
  rewrite Hb; split; reflexivity.
Qed.

Lemma calculateWallStrides_well_formed_witness :
  exists h ss es,
    calculateWallStrides sample_wall (seq 0 (length sample_wall)) 800 1300 650 = Some (h, ss, es) /\
    forall k s, nth_error ss k = Some s ->
      s <> [] /\
      (exists env, rec_get es (Z.of_nat k) = Some env) /\
      Sorted yx_le (map (deref h) s) /\
      (forall j l, nth_error s j = Some l ->
         strideIndex (deref h l) = Z.of_nat k /\ orderInStride (deref h l) = Z.of_nat j).
Proof. apply calculateWallStrides_well_formed; vm_compute; reflexivity. Defined.

(** * Further properties of the layout generator, the planner and their caller *)

Lemma string_of_uint_sep : forall d d' t t',
  (string_of_uint d ++ String "-" t = string_of_uint d' ++ String "-" t')%string ->
  d = d' /\ t = t'.
Proof.
  induction d as [|d IH|d IH|d IH|d IH|d IH|d IH|d IH|d IH|d IH|d IH];
    intros [|d'|d'|d'|d'|d'|d'|d'|d'|d'|d'] t t' H; simpl in H;
    try discriminate; injection H as H;
    try (split; [reflexivity|exact H]);
    apply IH in H as [-> ->]; split; reflexivity.
Qed.

Lemma brick_id_inj c i c' i' : brick_id c i = brick_id c' i' -> c = c' /\ i = i'.
Proof.
  unfold brick_id, string_of_nat. simpl. intros H.
  repeat (injection H as H).
  apply string_of_uint_sep in H as [Hc Hi].
  (* i part *)
  assert (Hi' : Nat.to_uint i = Nat.to_uint i').
  { revert Hi. generalize (Nat.to_uint i) (Nat.to_uint i'). clear.
    induction u as [|d IH|d IH|d IH|d IH|d IH|d IH|d IH|d IH|d IH|d IH];
      intros [|d'|d'|d'|d'|d'|d'|d'|d'|d'|d'] H; simpl in H;
      try discriminate; try reflexivity; injection H as H; f_equal; apply IH, H. }
  split; apply DecimalNat.Unsigned.to_uint_inj; assumption.
Qed.

Lemma lay_course_ids choose wallWidth yc c : forall fuel cx idx bs,
  lay_course fuel choose wallWidth yc c cx idx = Some bs ->
  map id bs = map (brick_id c) (seq idx (length bs)).
Proof.
  induction fuel as [|fuel IH]; intros cx idx bs H; [discriminate|].
  simpl in H. destruct (Qlt_bool cx wallWidth); [|injection H as <-; reflexivity].
  destruct (Qle_bool (wallWidth - cx) 0); [injection H as <-; reflexivity|].
  destruct (choose idx (wallWidth - cx)) as [[t l]|]; [|injection H as <-; reflexivity].
  destruct (lay_course fuel _ _ _ _ _ _) as [rest|] eqn:Er; [|discriminate].
  injection H as <-. apply IH in Er. simpl. rewrite Er. reflexivity.
Qed.


Lemma lay_course_geometry choose wallWidth yc c (Hc : choice_ok choose) :
  forall fuel cx idx bs,
  lay_course fuel choose wallWidth yc c cx idx = Some bs ->
  Forall (fun b => cx <= x b /\ 0 < len b /\ x b + len b <= wallWidth /\ y b = yc) bs /\
  StronglySorted (fun a b => x a + len a + HEAD_JOINT <= x b) bs.
Proof.
  induction fuel as [|fuel IH]; intros cx idx bs H; [discriminate|].
  simpl in H. destruct (Qlt_bool cx wallWidth) eqn:E;
    [|injection H as <-; split; constructor].
  destruct (Qle_bool (wallWidth - cx) 0) eqn:E2; [injection H as <-; split; constructor|].
  qprops. destruct (Hc idx (wallWidth - cx)) as (t & l & Hch & Hl0 & Hl1 & _); [lra|].
  rewrite Hch in H.
  destruct (lay_course fuel _ _ _ _ _ _) as [rest|] eqn:Er; [|discriminate].
  injection H as <-. assert (Hsh := lay_course_shape _ _ _ _ Hc _ _ _ _ Er).
  apply IH in Er as [Hf Hs].
  destruct (Qlt_bool (cx + l) wallWidth) eqn:E3; qprops.
  - split.
    + constructor; [simpl; split; [lra|split; [lra|split; [lra|reflexivity]]]|].
      eapply Forall_impl; [|exact Hf]. simpl; unfold HEAD_JOINT; intros b (H1 & H2 & H3 & H4).
      split; [lra|auto].
    + constructor; [exact Hs|].
      eapply Forall_impl; [|exact Hf]. simpl; intros b Hb; lra.
  - destruct rest as [|b' rest]; [|exfalso; destruct Hsh as (_ & Hlt & _); lra].
    split; [constructor; [simpl; split; [lra|split; [lra|split; [lra|reflexivity]]]|constructor]|].
    constructor; constructor.
Qed.

Lemma StronglySorted_app {A} (R : A -> A -> Prop) : forall l1 l2,
  StronglySorted R l1 -> StronglySorted R l2 ->
  (forall a b, In a l1 -> In b l2 -> R a b) -> StronglySorted R (l1 ++ l2).
Proof.
  induction l1 as [|a l1 IH]; intros l2 H1 H2 H; [exact H2|].
  apply StronglySorted_inv in H1 as [H1 Ha]. simpl. constructor.
  - apply IH; auto. intros a' b Ha' Hb; apply H; simpl; auto.
  - apply Forall_app; split; [exact Ha|].
    apply Forall_forall; intros b Hb; apply H; simpl; auto.
Qed.

Lemma lay_courses_geometry bondType wallWidth : forall cs bs,
  StronglySorted lt cs ->
  lay_courses bondType wallWidth cs = Some bs ->
  Forall (fun b => exists c, In c cs /\ 0 <= x b /\ 0 < len b /\ x b + len b <= wallWidth /\
                   y b = inject_Z (Z.of_nat c) * COURSE_HEIGHT) bs /\
  StronglySorted laid_before bs /\
  exists idss, map id bs = concat idss /\
    Forall2 (fun c ids => exists n, ids = map (brick_id c) (seq 0 n)) cs idss.
Proof.
  induction cs as [|c cs IH]; intros bs Hs H.
  - injection H as <-. split; [constructor|split; [constructor|exists []; split; constructor]].
  - simpl in H. destruct (course_bricks bondType wallWidth c) as [cb|] eqn:Ec; [|discriminate].
    destruct (lay_courses bondType wallWidth cs) as [rest|] eqn:Er; [|discriminate].
    injection H as <-. apply StronglySorted_inv in Hs as [Hs Hc].
    destruct (IH rest Hs eq_refl) as (Hf & Hss & idss & Hids & Hf2).
    unfold course_bricks in Ec.
    assert (Hids1 := lay_course_ids _ _ _ _ _ _ _ _ Ec).
    apply lay_course_geometry in Ec as [Hf1 Hs1]; [|apply course_choice_ok].
    split; [|split].
    + apply Forall_app; split.
      * eapply Forall_impl; [|exact Hf1]. simpl; intros b (H1 & H2 & H3 & H4).
        exists c; split; [left; reflexivity|]. split; [lra|auto].
      * eapply Forall_impl; [|exact Hf]. intros b (c' & Hc' & Hb). exists c'; split; [right; exact Hc'|exact Hb].
    + apply StronglySorted_app; [|exact Hss|].
      * clear -Hs1 Hf1. induction Hs1 as [|a l Hl IHl Ha]; constructor.
        -- apply IHl. inversion Hf1; assumption.
        -- inversion Hf1 as [|? ? Ha' Hl']; subst. apply Forall_forall; intros b Hb.
           rewrite Forall_forall in Ha, Hl'. left. split; [|apply Ha, Hb].
           destruct Ha' as (_ & _ & _ & ->). destruct (Hl' b Hb) as (_ & _ & _ & ->). reflexivity.
      * intros a b Ha Hb. rewrite Forall_forall in Hf1, Hf, Hc.
        destruct (Hf1 a Ha) as (_ & _ & _ & Hya). destruct (Hf b Hb) as (c' & Hc' & _ & _ & _ & Hyb).
        right. rewrite Hya, Hyb. specialize (Hc c' Hc').
        assert (Hz : (Z.of_nat c + 1 <= Z.of_nat c')%Z) by lia.
        rewrite Zle_Qle, inject_Z_plus in Hz. change (inject_Z 1) with 1 in Hz.
        unfold COURSE_HEIGHT. nra.
    + exists (map id cb :: idss). split; [rewrite map_app, Hids; reflexivity|].
      constructor; [|exact Hf2]. exists (length cb). exact Hids1.
Qed.

Lemma map_inj_NoDup {A B} (f : A -> B) : (forall a b, f a = f b -> a = b) ->
  forall l, NoDup l -> NoDup (map f l).
Proof.
  intros Hf l Hl. induction Hl as [|a l Ha _ IH]; simpl; constructor; [|exact IH].
  intros Hin. apply in_map_iff in Hin as [b [E Hb]]. apply Hf in E. subst. contradiction.
Qed.

Lemma course_ids_NoDup : forall cs idss,
  StronglySorted lt cs ->
  Forall2 (fun c ids => exists n, ids = map (brick_id c) (seq 0 n)) cs idss ->
  NoDup (concat idss).
Proof.
  intros cs idss Hs H. induction H as [|c ids cs idss [n ->] Hf2 IH]; [constructor|].
  apply StronglySorted_inv in Hs as [Hs Hc]. simpl.
  apply NoDup_app; [| apply IH, Hs |].
  - apply map_inj_NoDup; [|apply seq_NoDup].
    intros i j E. apply brick_id_inj in E as [_ E]. exact E.
  - intros s Hs1 Hs2. apply in_map_iff in Hs1 as [i [<- _]].
    apply in_concat in Hs2 as [ids' [Hids' Hin]].
    clear IH. induction Hf2 as [|c' ids'' cs' idss' [m ->] _ IH2]; [destruct Hids'|].
    destruct Hids' as [<-|Hids'].
    + apply in_map_iff in Hin as [j [E _]]. apply brick_id_inj in E as [E _].
      inversion Hc as [|? ? Hlt _]. lia.
    + apply IH2; [apply StronglySorted_inv in Hs; apply Hs| inversion Hc; assumption|exact Hids'].
Qed.

Lemma numCourses_fits wallHeight c :
  (c < Z.to_nat (numCourses wallHeight))%nat ->
  inject_Z (Z.of_nat c) * COURSE_HEIGHT + COURSE_HEIGHT <= wallHeight.
Proof.
  intros Hc. unfold numCourses in Hc.
  assert (Hz : (Z.of_nat c + 1 <= Qfloor (wallHeight / COURSE_HEIGHT))%Z) by lia.
  rewrite Zle_Qle, inject_Z_plus in Hz. change (inject_Z 1) with 1 in Hz.
  assert (Hf := Qfloor_le (wallHeight / COURSE_HEIGHT)).
  assert (Hq : wallHeight == wallHeight / COURSE_HEIGHT * COURSE_HEIGHT)
    by (unfold COURSE_HEIGHT; field).
  revert Hz Hf Hq. generalize (wallHeight / COURSE_HEIGHT).
  unfold COURSE_HEIGHT. intros q Hz Hf Hq. nra.
Qed.

Lemma seq_StronglySorted : forall n a, StronglySorted lt (seq a n).
Proof.
  induction n as [|n IH]; intros a; simpl; constructor; [apply IH|].
  apply Forall_forall; intros b Hb; apply in_seq in Hb; lia.
Qed.

Lemma generated_layout_ids_NoDup bondType wallWidth wallHeight :
  exists bs, generateInitialBrickLayout bondType wallWidth wallHeight = Some bs /\
    NoDup (map id bs).
Proof.
  unfold generateInitialBrickLayout.
  destruct (lay_courses_spec bondType wallWidth (seq 0 (Z.to_nat (numCourses wallHeight))))
    as (courses & Hl & _).
  exists (concat courses). split; [exact Hl|].
  apply lay_courses_geometry in Hl as (_ & _ & idss & -> & Hf);
    [|apply seq_StronglySorted].
  eapply course_ids_NoDup; [|exact Hf].
  apply seq_StronglySorted.
Qed.

(** X1: generateInitialBrickLayout always returns a layout, and no two of
    its bricks share an id. *)
Theorem generated_ids_distinct bondType wallWidth wallHeight :
  exists bs, generateInitialBrickLayout bondType wallWidth wallHeight = Some bs /\
    NoDup (map id bs).
Proof. exact (generated_layout_ids_NoDup bondType wallWidth wallHeight). Qed.

Lemma generated_layout_within_wall bondType wallWidth wallHeight :
  exists bs, generateInitialBrickLayout bondType wallWidth wallHeight = Some bs /\
    Forall (fun b => 0 <= x b /\ 0 < len b /\ x b + len b <= wallWidth /\
                     0 <= y b /\ y b + COURSE_HEIGHT <= wallHeight) bs.
Proof.
  unfold generateInitialBrickLayout.
  destruct (lay_courses_spec bondType wallWidth (seq 0 (Z.to_nat (numCourses wallHeight))))
    as (courses & Hl & _).
  exists (concat courses). split; [exact Hl|].
  apply lay_courses_geometry in Hl as (Hf & _);
    [|apply seq_StronglySorted].
  eapply Forall_impl; [|exact Hf]. intros b (c & Hc & H1 & H2 & H3 & Hy).
  apply in_seq in Hc as [_ Hc]. simpl in Hc. apply numCourses_fits in Hc.
  split; [exact H1|split; [exact H2|split; [exact H3|]]]. rewrite Hy. split; [|exact Hc].
  apply Qmult_le_0_compat; [|unfold COURSE_HEIGHT; lra].
  change 0 with (inject_Z 0). rewrite <- Zle_Qle. lia.
Qed.

(** X2: Every brick of a generated layout lies inside the wall: x >= 0,
    length > 0, x + length <= wallWidth, y >= 0 and y + COURSE_HEIGHT <=
    wallHeight. *)
Theorem generated_bricks_within_wall bondType wallWidth wallHeight :
  exists bs, generateInitialBrickLayout bondType wallWidth wallHeight = Some bs /\
    Forall (fun b => 0 <= x b /\ 0 < len b /\ x b + len b <= wallWidth /\
                     0 <= y b /\ y b + COURSE_HEIGHT <= wallHeight) bs.
Proof. exact (generated_layout_within_wall bondType wallWidth wallHeight). Qed.

(** X3: A generated layout lists its bricks in laying order without overlap:
    for every brick a listed before a brick b, either both are in the same
    course and b starts at least a head joint (10 mm) after a ends, or b
    lies at least one course (62.5 mm) higher. *)
Theorem generated_bricks_separated bondType wallWidth wallHeight :
  exists bs, generateInitialBrickLayout bondType wallWidth wallHeight = Some bs /\
    StronglySorted laid_before bs.
Proof.
  unfold generateInitialBrickLayout.
  destruct (lay_courses_spec bondType wallWidth (seq 0 (Z.to_nat (numCourses wallHeight))))
    as (courses & Hl & _).
  exists (concat courses). split; [exact Hl|].
  apply lay_courses_geometry in Hl as (_ & Hs & _);
    [exact Hs|apply seq_StronglySorted].
Qed.

Lemma plan_complete h0 allWallBricks envWidth envHeight wallWidth :
  locs_valid h0 allWallBricks = true ->
  NoDup (map id (map (deref h0) allWallBricks)) ->
  exists h ss es,
    calculateWallStrides h0 allWallBricks envWidth envHeight wallWidth = Some (h, ss, es) /\
    Permutation (map id (concat (map (map (deref h)) ss)))
                (map id (map (deref h0) allWallBricks)) /\
    (length ss <= length allWallBricks)%nat.
Proof.
  intros Hv Hd.
  destruct (final_state envWidth envHeight wallWidth _ _ Hv) as [st [Hcalc [Hinv Hexit]]].
  exists (heap_of st), (strides st), (envelopes st); split; [exact Hcalc|].
  assert (Hne := (fun s => output_stride_nonempty _ _ _ _ _ _ s Hinv)).
  apply locs_valid_Forall in Hv.
  unfold plan_inv in Hinv; cbv zeta in Hinv.
  destruct Hinv as [[ext Hh] [_ [_ [Hp [Hincl [Hnd _]]]]]].
  set (allv := map (deref h0) allWallBricks) in *.
  set (RS := map (map (deref (heap_of st))) (strides st)) in *.
  specialize (Hnd Hd).
  assert (HpC : placed st = concat (map (map id) RS)).
  { rewrite Hp. apply (fold_set_add_distinct _ []), Hnd. }
  rewrite concat_map.
  assert (Hperm : Permutation (concat (map (map id) RS)) (map id allv)).
  { apply NoDup_Permutation; auto. intros i; split; [rewrite <- HpC; apply Hincl|].
    rewrite <- HpC. destruct Hexit as [Hc|Hu].
    - unfold loop_cond in Hc. apply Nat.ltb_ge in Hc.
      revert i. apply NoDup_length_incl; auto.
      + rewrite Hp; apply fold_set_add_NoDup; constructor.
      + unfold allv; rewrite !length_map; exact Hc.
    - intros Hi. apply in_map_iff in Hi as [b [<- Hb]].
      unfold unplaced_of in Hu. rewrite Hh, allv_ext in Hu by exact Hv. fold allv in Hu.
      apply set_has_In. destruct (set_has (placed st) (id b)) eqn:E; [reflexivity|].
      assert (Hf : In b (filter (fun b => negb (set_has (placed st) (id b))) allv)).
      { apply filter_In; rewrite E; auto. }
      rewrite Hu in Hf; destruct Hf. }
  split; [exact Hperm|].
  apply Permutation_length in Hperm. unfold allv in Hperm; rewrite !length_map in Hperm.
  rewrite <- concat_map, length_map in Hperm.
  assert (H1 := length_concat_nonempty RS Hne).
  unfold RS in H1 at 1; rewrite length_map in H1. lia.
Qed.

Lemma locs_valid_seq bs : locs_valid bs (seq 0 (length bs)) = true.
Proof.
  unfold locs_valid. apply forallb_forall. intros l Hl. apply in_seq in Hl.
  apply Nat.ltb_lt. lia.
Qed.

(** X5: Passing a generated layout to calculateWallStrides, with the
    layout's own bricks, always succeeds. The strides then hold exactly the
    layout's bricks, each once, and there are at most as many strides as
    bricks. *)
Theorem generate_then_plan_complete bondType wallWidth wallHeight envWidth envHeight :
  exists bs h ss es,
    generate_and_plan bondType wallWidth wallHeight envWidth envHeight = Some (bs, (h, ss, es)) /\
    Permutation (map id (concat (map (map (deref h)) ss))) (map id bs) /\
    (length ss <= length bs)%nat.
Proof.
  destruct (generated_layout_ids_NoDup bondType wallWidth wallHeight) as [bs [Hg Hd]].
  assert (Hm : map (deref bs) (seq 0 (length bs)) = bs) by exact (map_deref_seq bs []).
  destruct (plan_complete bs (seq 0 (length bs)) envWidth envHeight wallWidth
              (locs_valid_seq bs)) as (h & ss & es & Hc & Hp & Hl); [rewrite Hm; exact Hd|].
  exists bs, h, ss, es. unfold generate_and_plan. rewrite Hg, Hc.
  split; [reflexivity|]. rewrite Hm in Hp. rewrite length_seq in Hl. auto.
Qed.

Lemma support_overlap_nonneg b s : 0 <= support_overlap b s.
Proof.
  unfold support_overlap. destruct (Qlt_bool _ _) eqn:E; qprops; lra.
Qed.

Lemma sum_filter_mono {A} (w : A -> Q) (f g : A -> bool) :
  (forall a, 0 <= w a) -> (forall a, f a = true -> g a = true) ->
  forall l, fold_right Qplus 0 (map w (filter f l)) <= fold_right Qplus 0 (map w (filter g l)).
Proof.
  intros Hw Hfg l. induction l as [|a l IH]; simpl; [lra|].
  destruct (f a) eqn:Ef.
  - rewrite (Hfg a Ef). simpl. lra.
  - destruct (g a); simpl; [specialize (Hw a)|]; lra.
Qed.

Lemma isBrickSupported_sum brick p t all :
  isBrickSupported brick p t all =
  (Qeq_bool (y brick) 0 ||
   Qle_bool (len brick * (9 # 10))
     (fold_right Qplus 0 (map (support_overlap brick) (filter (is_supporting brick p t) all)))).
Proof.
  unfold isBrickSupported. destruct (Qeq_bool (y brick) 0); [reflexivity|simpl].
  apply Qle_bool_compat.
  rewrite fold_sum_right, sum_perm with (l' := filter (is_supporting brick p t) all)
    by apply sort_by_perm.
  lra.
Qed.

(** X6: Support only grows: if a brick is supported for a set of placed ids
    and a current stride, it stays supported when more ids are placed or
    more bricks join the current stride. *)
Theorem isBrickSupported_monotone brick p p' t t' all :
  incl p p' -> incl (map id t) (map id t') ->
  isBrickSupported brick p t all = true -> isBrickSupported brick p' t' all = true.
Proof.
  intros Hp Ht. rewrite !isBrickSupported_sum.
  destruct (Qeq_bool (y brick) 0); [reflexivity|simpl].
  intros H. apply Qle_bool_iff in H. apply Qle_bool_iff. eapply Qle_trans; [exact H|].
  apply sum_filter_mono; [apply support_overlap_nonneg|].
  intros c. unfold is_supporting.
  destruct (negb _); [discriminate|]. destruct (negb _); [discriminate|].
  rewrite !existsb_id_map. intros Hc. apply orb_true_iff in Hc as [Hc|Hc]; apply orb_true_iff.
  - left. apply set_has_In. apply set_has_In in Hc. apply Hp, Hc.
  - right. apply existsb_exists in Hc as [j [Hj E]]. apply String.eqb_eq in E; subst j.
    apply existsb_exists. exists (id c). split; [apply Ht, Hj|apply String.eqb_refl].
Qed.

Lemma isBrickSupported_monotone_witness :
  incl ["a"%string] ["a"%string; "b"%string] /\ incl (map id []) (map id []) /\
  isBrickSupported (deref sample_stack 1%nat) ["a"%string] [] sample_stack = true /\
  isBrickSupported (deref sample_stack 1%nat) ["a"%string; "b"%string] [] sample_stack = true.
Proof.
  assert (H1 : incl ["a"%string] ["a"%string; "b"%string]) by (intros i Hi; simpl in *; tauto).
  assert (H2 : incl (map id ([] : list Brick)) (map id ([] : list Brick))) by (intros i Hi; exact Hi).
  assert (H3 : isBrickSupported (deref sample_stack 1%nat) ["a"%string] [] sample_stack = true)
    by (vm_compute; reflexivity).
  split; [exact H1|split; [exact H2|split; [exact H3|]]].
  exact (isBrickSupported_monotone _ _ _ _ _ _ H1 H2 H3).
Defined.

Lemma output_ids_fresh envWidth envHeight wallWidth allWallBricks h0 st k s b :
  plan_inv envWidth envHeight wallWidth allWallBricks h0 st ->
  nth_error (map (map (deref (heap_of st))) (strides st)) k = Some s ->
  In b s ->
  In (id b) (map id (map (deref h0) allWallBricks)) /\
  ~ In (id b) (placed_before k (map (map (deref (heap_of st))) (strides st))).
Proof.
  intros Hinv Hk Hb.
  destruct (output_stride _ _ _ _ _ _ _ _ Hinv Hk) as [u0 [urest [Hu [Hs _]]]].
  rewrite Hs in Hb. apply In_stamp in Hb as [c [j [Hc ->]]].
  destruct (chosen_props envWidth envHeight wallWidth (map (deref h0) allWallBricks)
     (placed_before k (map (map (deref (heap_of st))) (strides st))) u0 urest)
    as [_ [Hincl _]].
  apply Hincl in Hc. rewrite <- Hu in Hc. apply filter_In in Hc as [Hc Hn].
  simpl. split; [apply in_map, Hc|].
  apply negb_true_iff, set_has_false in Hn. exact Hn.
Qed.

(** X7: When every input location is in the store, calculateWallStrides
    succeeds, the ids in its strides are exactly the input ids, and no id
    appears in two different strides (even when input ids repeat). *)
Theorem calculateWallStrides_covers_ids h0 allWallBricks envWidth envHeight wallWidth :
  locs_valid h0 allWallBricks = true ->
  exists h ss es,
    calculateWallStrides h0 allWallBricks envWidth envHeight wallWidth = Some (h, ss, es) /\
    (forall i, In i (map id (concat (map (map (deref h)) ss))) <->
               In i (map id (map (deref h0) allWallBricks))) /\
    (forall k k' s s' b b', (k < k')%nat ->
       nth_error (map (map (deref h)) ss) k = Some s ->
       nth_error (map (map (deref h)) ss) k' = Some s' ->
       In b s -> In b' s' -> id b <> id b').
Proof.
  intros Hv.
  destruct (final_state envWidth envHeight wallWidth _ _ Hv) as [st [Hcalc [Hinv Hexit]]].
  exists (heap_of st), (strides st), (envelopes st); split; [exact Hcalc|].
  set (RS := map (map (deref (heap_of st))) (strides st)).
  split.
  - assert (Hp : forall i, In i (placed st) <-> In i (map id (concat RS))).
    { intros i. unfold plan_inv in Hinv; cbv zeta in Hinv.
      destruct Hinv as [_ [_ [_ [Hp _]]]]. rewrite Hp, fold_set_add_In, concat_map.
      simpl. tauto. }
    intros i; split.
    + intros Hi. apply in_map_iff in Hi as [b [<- Hb]]. apply in_concat in Hb as [s [Hs Hb]].
      apply In_nth_error in Hs as [k Hk].
      exact (proj1 (output_ids_fresh _ _ _ _ _ _ _ _ _ Hinv Hk Hb)).
    + intros Hi. apply Hp.
      assert (Hv' := locs_valid_Forall _ _ Hv).
      unfold plan_inv in Hinv; cbv zeta in Hinv.
      destruct Hinv as [[ext Hh] [_ [_ [HpE [Hincl _]]]]].
      destruct Hexit as [Hc|Hu].
      * unfold loop_cond in Hc. apply Nat.ltb_ge in Hc.
        revert i Hi. apply NoDup_length_incl; auto.
        -- rewrite HpE; apply fold_set_add_NoDup; constructor.
        -- rewrite !length_map; exact Hc.
      * apply in_map_iff in Hi as [b [<- Hb]].
        unfold unplaced_of in Hu. rewrite Hh, allv_ext in Hu by exact Hv'.
        apply set_has_In. destruct (set_has (placed st) (id b)) eqn:E; [reflexivity|].
        assert (Hf : In b (filter (fun b => negb (set_has (placed st) (id b)))
                               (map (deref h0) allWallBricks))).
        { apply filter_In; rewrite E; auto. }
        rewrite Hu in Hf; destruct Hf.
  - intros k k' s s' b b' Hlt Hk Hk' Hb Hb' E.
    apply (proj2 (output_ids_fresh _ _ _ _ _ _ _ _ _ Hinv Hk' Hb')).
    rewrite <- E. unfold placed_before. apply fold_set_add_In. right.
    apply in_concat. exists (map id s). split; [|apply in_map, Hb].
    apply in_map. apply (nth_error_In _ k). rewrite nth_error_firstn.
    destruct (Nat.ltb_spec k k'); [exact Hk|lia].
Qed.

Lemma calculateWallStrides_covers_ids_witness :
  exists h ss es,
    calculateWallStrides sample_wall (seq 0 (length sample_wall)) 800 1300 650 = Some (h, ss, es) /\
    (forall i, In i (map id (concat (map (map (deref h)) ss))) <->
               In i (map id (map (deref sample_wall) (seq 0 (length sample_wall))))) /\
    (forall k k' s s' b b', (k < k')%nat ->
       nth_error (map (map (deref h)) ss) k = Some s ->
       nth_error (map (map (deref h)) ss) k' = Some s' ->
       In b s -> In b' s' -> id b <> id b').
Proof. apply calculateWallStrides_covers_ids; vm_compute; reflexivity. Defined.

Section Candidates.
Variables (envWidth envHeight wallWidth : Q) (allv : list Brick) (p : list string)
  (u0 : Brick) (urest : list Brick).

Lemma candidate_xs_clamped bot : forall sx,
  In sx (candidate_xs envWidth wallWidth bot (u0 :: urest)) ->
  exists v, sx = clampX envWidth wallWidth v.
Proof.
  unfold candidate_xs. intros sx Hsx.
  apply (Permutation_in _ (sort_by_perm _ _)) in Hsx. revert sx Hsx.
  apply Forall_forall.
  generalize (filter (fun b => Qeq_bool (y b) bot) (u0 :: urest)).
  assert (Hq : forall s v, Forall (fun q => exists v, q = clampX envWidth wallWidth v) s ->
     Forall (fun q => exists v, q = clampX envWidth wallWidth v) (qset_add s (clampX envWidth wallWidth v))).
  { intros s v Hs. unfold qset_add. destruct (existsb _ _); [exact Hs|].
    apply Forall_app; split; [exact Hs|constructor; [eauto|constructor]]. }
  intros l. assert (H0 : Forall (fun q => exists v, q = clampX envWidth wallWidth v) ([] : list Q))
    by constructor. revert H0. generalize ([] : list Q).
  induction l as [|b l IH]; intros s Hs; simpl; [exact Hs|].
  apply IH, Hq, Hq, Hs.
Qed.

Lemma choose_stride_startX :
  exists v, startX (choose_stride envWidth envHeight wallWidth allv p u0 urest) =
            clampX envWidth wallWidth v.
Proof.
  unfold choose_stride.
  set (bot := bottom_most_y u0 urest).
  set (inv := fun o : StrideOption => o = mkOption (-1) (-1) [] (-1) \/
    exists v, startX o = clampX envWidth wallWidth v).
  assert (H : forall xs o, (forall sx, In sx xs -> exists v, sx = clampX envWidth wallWidth v) ->
     inv o -> inv (fold_left
     (evaluate_candidate envWidth envHeight allv p (u0 :: urest) bot) xs o)).
  { induction xs as [|sx xs IH]; intros o Hxs Ho; simpl; auto.
    apply IH; [intros; apply Hxs; simpl; auto|]. unfold evaluate_candidate.
    destruct (Z.ltb _ _); auto. right; simpl. apply Hxs; simpl; auto. }
  specialize (H (candidate_xs envWidth wallWidth bot (u0 :: urest))
                (mkOption (-1) (-1) [] (-1)) (candidate_xs_clamped bot) (or_introl eq_refl)).
  destruct (fold_left _ _ _) as [sx sy bs n] eqn:Ef.
  simpl. destruct (Z.leb n 0) eqn:Hn; [simpl; eauto|].
  unfold inv in H. destruct H as [H|H]; [injection H as _ _ _ ->; discriminate|exact H].
Qed.

Lemma choose_stride_startY :
  exists b, In b (u0 :: urest) /\
    startY (choose_stride envWidth envHeight wallWidth allv p u0 urest) == y b.
Proof.
  destruct (choose_stride_cases envWidth envHeight wallWidth allv p u0 urest)
    as [Hf|[Hy _]]; cbv zeta in *.
  - rewrite Hf. exists u0. split; [left; reflexivity|apply Qeq_refl].
  - rewrite Hy. apply bottom_most_y_attained.
Qed.

(** The greedy choice: no candidate start admits more bricks. *)
Lemma choose_stride_max : forall sx,
  let bot := bottom_most_y u0 urest in
  In sx (candidate_xs envWidth wallWidth bot (u0 :: urest)) ->
  (length (admit_bricks allv p (sort_by yx_cmp
     (filter (contained_in envWidth envHeight sx bot) (u0 :: urest)))) <=
   length (bricks (choose_stride envWidth envHeight wallWidth allv p u0 urest)))%nat.
Proof.
  intros sx bot Hsx. unfold choose_stride. fold bot.
  set (adm := fun sx => length (admit_bricks allv p (sort_by yx_cmp
     (filter (contained_in envWidth envHeight sx bot) (u0 :: urest))))).
  change (length (admit_bricks _ _ _)) with (adm sx).
  set (inv := fun (seen : list Q) (o : StrideOption) =>
    (o = mkOption (-1) (-1) [] (-1) \/ count o = Z.of_nat (length (bricks o))) /\
    forall sx, In sx seen -> (Z.of_nat (adm sx) <= Z.max (count o) 0)%Z).
  assert (H : forall xs seen o, inv seen o -> inv (seen ++ xs) (fold_left
     (evaluate_candidate envWidth envHeight allv p (u0 :: urest) bot) xs o)).
  { induction xs as [|c xs IH]; intros seen o Ho; simpl; [rewrite app_nil_r; exact Ho|].
    replace (seen ++ c :: xs) with ((seen ++ [c]) ++ xs) by (rewrite <- app_assoc; reflexivity).
    apply IH. destruct Ho as [Ho1 Ho2]. unfold evaluate_candidate.
    fold (adm c) in *.
    destruct (Z.ltb (count o) (Z.of_nat (adm c))) eqn:Hlt.
    - apply Z.ltb_lt in Hlt. split; [right; reflexivity|]. simpl.
      intros s Hs. apply in_app_or in Hs as [Hs|[<-|[]]]; [|lia].
      specialize (Ho2 s Hs). lia.
    - apply Z.ltb_ge in Hlt. split; [exact Ho1|].
      intros s Hs. apply in_app_or in Hs as [Hs|[<-|[]]]; [apply Ho2, Hs|lia]. }
  specialize (H (candidate_xs envWidth wallWidth bot (u0 :: urest)) []
                (mkOption (-1) (-1) [] (-1))).
  destruct H as [H1 H2]; [split; [left; reflexivity|intros _ []]|].
  simpl in H2. specialize (H2 sx Hsx).
  destruct (fold_left _ _ _) as [sx' sy bs n] eqn:Ef; simpl in *.
  destruct (Z.leb n 0) eqn:Hn; simpl.
  - apply Z.leb_le in Hn. lia.
  - apply Z.leb_gt in Hn. destruct H1 as [H1|H1]; [injection H1 as _ _ _ ->; lia|]. lia.
Qed.

End Candidates.

Lemma clampX_range envWidth wallWidth v :
  0 <= clampX envWidth wallWidth v /\ clampX envWidth wallWidth v <= Qmax 0 (wallWidth - envWidth).
Proof.
  unfold clampX.
  destruct (Q.max_spec 0 (Qmin v (wallWidth - envWidth))) as [[H1 ->]|[H1 ->]];
  destruct (Q.min_spec v (wallWidth - envWidth)) as [[H2 E2]|[H2 E2]]; rewrite ?E2 in *;
  destruct (Q.max_spec 0 (wallWidth - envWidth)) as [[H3 ->]|[H3 ->]]; lra.
Qed.

(** X8: When every input location is in the store, each stride has an
    envelope whose minX lies in [0, max(0, wallWidth - envWidth)], whose
    width is envWidth and height is envHeight, and whose minY is the y of
    some input brick. *)
Theorem calculateWallStrides_envelopes_in_wall h0 allWallBricks envWidth envHeight wallWidth :
  locs_valid h0 allWallBricks = true ->
  exists h ss es,
    calculateWallStrides h0 allWallBricks envWidth envHeight wallWidth = Some (h, ss, es) /\
    forall k s, nth_error ss k = Some s ->
      exists env, rec_get es (Z.of_nat k) = Some env /\
        0 <= minX env /\ minX env <= Qmax 0 (wallWidth - envWidth) /\
        maxX env == minX env + envWidth /\ maxY env == minY env + envHeight /\
        exists b, In b (map (deref h0) allWallBricks) /\ minY env == y b.
Proof.
  intros Hv.
  destruct (final_state envWidth envHeight wallWidth _ _ Hv) as [st [Hcalc [Hinv _]]].
  exists (heap_of st), (strides st), (envelopes st); split; [exact Hcalc|].
  intros k s Hk.
  assert (Hk' : nth_error (map (map (deref (heap_of st))) (strides st)) k =
                Some (map (deref (heap_of st)) s)) by (rewrite nth_error_map, Hk; reflexivity).
  destruct (output_stride _ _ _ _ _ _ _ _ Hinv Hk') as [u0 [urest [Hu [_ He]]]].
  eexists; split; [exact He|]. simpl.
  destruct (choose_stride_startX envWidth envHeight wallWidth (map (deref h0) allWallBricks)
    (placed_before k (map (map (deref (heap_of st))) (strides st))) u0 urest) as [v ->].
  destruct (clampX_range envWidth wallWidth v) as [H1 H2].
  split; [exact H1|split; [exact H2|split; [apply Qeq_refl|split; [apply Qeq_refl|]]]].
  destruct (choose_stride_startY envWidth envHeight wallWidth (map (deref h0) allWallBricks)
    (placed_before k (map (map (deref (heap_of st))) (strides st))) u0 urest) as [b [Hb Hy]].
  exists b. split; [|exact Hy]. rewrite <- Hu in Hb. apply filter_In in Hb. tauto.
Qed.

Lemma calculateWallStrides_envelopes_in_wall_witness :
  exists h ss es,
    calculateWallStrides sample_wall (seq 0 (length sample_wall)) 800 1300 650 = Some (h, ss, es) /\
    forall k s, nth_error ss k = Some s ->
      exists env, rec_get es (Z.of_nat k) = Some env /\
        0 <= minX env /\ minX env <= Qmax 0 (650 - 800) /\
        maxX env == minX env + 800 /\ maxY env == minY env + 1300 /\
        exists b, In b (map (deref sample_wall) (seq 0 (length sample_wall))) /\ minY env == y b.
Proof. apply calculateWallStrides_envelopes_in_wall; vm_compute; reflexivity. Defined.

(** X9: Each stride is a greedy choice: when stride k is chosen, no
    candidate start x among those the code tries for the bottom-most
    unplaced course would admit more bricks than the stride holds. *)
Theorem calculateWallStrides_greedy h0 allWallBricks envWidth envHeight wallWidth :
  locs_valid h0 allWallBricks = true ->
  exists h ss es,
    calculateWallStrides h0 allWallBricks envWidth envHeight wallWidth = Some (h, ss, es) /\
    forall k s u0 urest sx,
      let allv := map (deref h0) allWallBricks in
      let p := placed_before k (map (map (deref h)) ss) in
      nth_error (map (map (deref h)) ss) k = Some s ->
      filter (fun b => negb (set_has p (id b))) allv = u0 :: urest ->
      In sx (candidate_xs envWidth wallWidth (bottom_most_y u0 urest) (u0 :: urest)) ->
      (length (admit_bricks allv p (sort_by yx_cmp
         (filter (contained_in envWidth envHeight sx (bottom_most_y u0 urest)) (u0 :: urest))))
       <= length s)%nat.
Proof.
  intros Hv.
  destruct (final_state envWidth envHeight wallWidth _ _ Hv) as [st [Hcalc [Hinv _]]].
  exists (heap_of st), (strides st), (envelopes st); split; [exact Hcalc|].
  intros k s u0 urest sx allv p Hk Hu Hsx.
  destruct (output_stride _ _ _ _ _ _ _ _ Hinv Hk) as [v0 [vrest [Hv0 [Hs _]]]].
  fold allv p in Hv0, Hs. rewrite Hu in Hv0. injection Hv0 as <- <-.
  rewrite Hs, length_stamp. apply choose_stride_max, Hsx.
Qed.

Lemma calculateWallStrides_greedy_witness :
  exists h ss es,
    calculateWallStrides sample_wall (seq 0 (length sample_wall)) 800 1300 650 = Some (h, ss, es) /\
    forall k s u0 urest sx,
      let allv := map (deref sample_wall) (seq 0 (length sample_wall)) in
      let p := placed_before k (map (map (deref h)) ss) in
      nth_error (map (map (deref h)) ss) k = Some s ->
      filter (fun b => negb (set_has p (id b))) allv = u0 :: urest ->
      In sx (candidate_xs 800 650 (bottom_most_y u0 urest) (u0 :: urest)) ->
      (length (admit_bricks allv p (sort_by yx_cmp
         (filter (contained_in 800 1300 sx (bottom_most_y u0 urest)) (u0 :: urest))))
       <= length s)%nat.
Proof. apply calculateWallStrides_greedy; vm_compute; reflexivity. Defined.

Lemma STRIDE_COLORS_NoDup : NoDup STRIDE_COLORS.
Proof.
  unfold STRIDE_COLORS.
  repeat constructor; simpl; intros H; repeat (destruct H as [H|H]; [discriminate H|]); exact H.
Qed.

(** X10: For non-negative stride indices getStrideColor always returns a
    color, and two indices get the same color exactly when they are
    congruent modulo 10. *)
Theorem getStrideColor_cycle k k' :
  (0 <= k)%Z -> (0 <= k')%Z ->
  (exists c, getStrideColor k = Some c) /\
  (getStrideColor k = getStrideColor k' <-> (k mod 10 = k' mod 10)%Z).
Proof.
  intros Hk Hk'. unfold getStrideColor, js_at. change (Z.of_nat (length STRIDE_COLORS)) with 10%Z.
  rewrite !Z.rem_mod_nonneg by lia.
  assert (H1 := Z.mod_pos_bound k 10 ltac:(lia)).
  assert (H2 := Z.mod_pos_bound k' 10 ltac:(lia)).
  destruct (Z.ltb_spec (k mod 10) 0); [lia|]. destruct (Z.ltb_spec (k' mod 10) 0); [lia|].
  split.
  - destruct (nth_error STRIDE_COLORS (Z.to_nat (k mod 10))) as [c|] eqn:E; [eauto|].
    apply nth_error_None in E. simpl in E. lia.
  - split; [|intros ->; reflexivity].
    intros E. destruct (nth_error STRIDE_COLORS (Z.to_nat (k mod 10))) as [c|] eqn:E1;
      [|apply nth_error_None in E1; simpl in E1; lia].
    symmetry in E. rewrite <- E1 in E.
    apply (NoDup_nth_error STRIDE_COLORS) in E; [lia|apply STRIDE_COLORS_NoDup|].
    simpl. lia.
Qed.

Lemma getStrideColor_cycle_witness :
  (exists c, getStrideColor 3 = Some c) /\
  (getStrideColor 3 = getStrideColor 13 <-> (3 mod 10 = 13 mod 10)%Z).
Proof. apply getStrideColor_cycle; lia. Defined.

(** X11: For a negative stride index getStrideColor returns undefined
    exactly when the index is not a multiple of 10 (JavaScript's % keeps the
    sign). *)
Theorem getStrideColor_negative k :
  (k < 0)%Z -> (getStrideColor k = None <-> (Z.rem k 10 <> 0)%Z).
Proof.
  intros Hk. unfold getStrideColor, js_at. change (Z.of_nat (length STRIDE_COLORS)) with 10%Z.
  assert (Hr : (Z.rem k 10 <= 0)%Z) by (apply Z.rem_nonpos; lia).
  destruct (Z.ltb_spec (Z.rem k 10) 0) as [Hn|Hn].
  - split; [intros _; lia|reflexivity].
  - assert (H0 : Z.rem k 10 = 0%Z) by lia. rewrite H0. simpl.
    split; [discriminate|intros H; exfalso; exact (H eq_refl)].
Qed.

Lemma getStrideColor_negative_witness :
  getStrideColor (-1) = None <-> (Z.rem (-1) 10 <> 0)%Z.
Proof. apply getStrideColor_negative; lia. Defined.

Lemma add_previous_shift (strides : list (list Brick)) r : forall l a a' c, a == a' + c ->
  fold_left (fun totalTime i =>
       match nth_error strides i with
       | Some s => totalTime + inject_Z (Z.of_nat (length s)) * r
       | None => totalTime
       end) l a ==
  fold_left (fun totalTime i =>
       match nth_error strides i with
       | Some s => totalTime + inject_Z (Z.of_nat (length s)) * r
       | None => totalTime
       end) l a' + c.
Proof.
  induction l as [|i l IH]; intros a a' c H; simpl; [exact H|].
  apply IH. destruct (nth_error strides i); [rewrite H|]; lra.
Qed.

Lemma getStrideStartTime_in strides r R k :
  (k < length strides)%nat ->
  getStrideStartTime strides r R (Z.of_nat k) =
  add_previous_strides strides r (Z.of_nat k) (0 + inject_Z (Z.of_nat k + 1) * R).
Proof.
  intros Hk. unfold getStrideStartTime.
  destruct (Z.ltb_spec (Z.of_nat k) 0); [lia|].
  destruct (Z.leb_spec (Z.of_nat (length strides)) (Z.of_nat k)); [lia|]. reflexivity.
Qed.

Lemma stride_start_times strides r R :
  (forall k, (k < 0 \/ Z.of_nat (length strides) <= k)%Z -> getStrideStartTime strides r R k = 0) /\
  (strides <> [] -> getStrideStartTime strides r R 0 == R) /\
  (forall k sk, nth_error strides k = Some sk -> (S k < length strides)%nat ->
     getStrideStartTime strides r R (Z.of_nat (S k)) ==
     getStrideStartTime strides r R (Z.of_nat k) + inject_Z (Z.of_nat (length sk)) * r + R).
Proof.
  split; [|split].
  - intros k Hk. unfold getStrideStartTime.
    destruct Hk as [Hk|Hk]; [apply Z.ltb_lt in Hk; rewrite Hk; reflexivity|].
    apply Z.leb_le in Hk. rewrite Hk, orb_true_r. reflexivity.
  - intros Hne. change 0%Z with (Z.of_nat 0). rewrite getStrideStartTime_in
      by (destruct strides; [congruence|simpl; lia]).
    unfold add_previous_strides. simpl. change (inject_Z 1) with 1. lra.
  - intros k sk Hk Hlt. rewrite !getStrideStartTime_in by lia.
    unfold add_previous_strides. rewrite !Nat2Z.id, seq_S, fold_left_app. cbn [fold_left Nat.add].
    rewrite Hk.
    assert (E : 0 + inject_Z (Z.of_nat (S k) + 1) * R == (0 + inject_Z (Z.of_nat k + 1) * R) + R).
    { rewrite Nat2Z.inj_succ. unfold Z.succ. rewrite !inject_Z_plus. change (inject_Z 1) with 1. lra. }
    rewrite (add_previous_shift strides r _ _ _ R E). lra.
Qed.

(** X12: getStrideStartTime is 0 for an index outside the strides; the first
    stride starts at robotRepositionTime; and each later stride starts after
    the previous one by that stride's brick count times repositionTime plus
    robotRepositionTime. *)
Theorem getStrideStartTime_timeline strides r R :
  (forall k, (k < 0 \/ Z.of_nat (length strides) <= k)%Z -> getStrideStartTime strides r R k = 0) /\
  (strides <> [] -> getStrideStartTime strides r R 0 == R) /\
  (forall k sk, nth_error strides k = Some sk -> (S k < length strides)%nat ->
     getStrideStartTime strides r R (Z.of_nat (S k)) ==
     getStrideStartTime strides r R (Z.of_nat k) + inject_Z (Z.of_nat (length sk)) * r + R).
Proof. exact (stride_start_times strides r R). Qed.

Lemma planner_brick_time_at envWidth envHeight wallWidth allWallBricks h0 st r R k s j b :
  plan_inv envWidth envHeight wallWidth allWallBricks h0 st ->
  nth_error (map (map (deref (heap_of st))) (strides st)) k = Some s ->
  nth_error s j = Some b ->
  calculateBrickTime (map (map (deref (heap_of st))) (strides st)) r R (Some b) =
  getStrideStartTime (map (map (deref (heap_of st))) (strides st)) r R (Z.of_nat k) +
  inject_Z (Z.of_nat j) * r.
Proof.
  intros Hinv Hk Hj.
  destruct (nth_error_output _ _ _ _ _ _ _ _ _ _ Hinv Hk Hj) as [u0 [urest [b0 [_ [_ [_ ->]]]]]].
  set (RS := map (map (deref (heap_of st))) (strides st)) in *.
  assert (Hlt : (k < length RS)%nat) by (apply nth_error_Some; congruence).
  rewrite getStrideStartTime_in by exact Hlt.
  unfold calculateBrickTime; cbn [strideIndex orderInStride set_orderInStride set_strideIndex].
  destruct (Z.ltb_spec (Z.of_nat k) 0); [lia|]. destruct (Z.ltb_spec (Z.of_nat j) 0); [lia|].
  simpl orb. unfold js_at. destruct (Z.ltb_spec (Z.of_nat k) 0); [lia|].
  rewrite Nat2Z.id, Hk. destruct (Nat.eqb_spec (length RS) 0); [lia|]. reflexivity.
Qed.

(** X13: For the strides calculateWallStrides returns, the time
    calculateBrickTime gives the j-th brick of stride k is
    getStrideStartTime(k) plus j times repositionTime. *)
Theorem planner_brick_times h0 allWallBricks envWidth envHeight wallWidth r R :
  locs_valid h0 allWallBricks = true ->
  exists h ss es,
    calculateWallStrides h0 allWallBricks envWidth envHeight wallWidth = Some (h, ss, es) /\
    forall k s j b,
      nth_error (map (map (deref h)) ss) k = Some s -> nth_error s j = Some b ->
      calculateBrickTime (map (map (deref h)) ss) r R (Some b) =
      getStrideStartTime (map (map (deref h)) ss) r R (Z.of_nat k) + inject_Z (Z.of_nat j) * r.
Proof.
  intros Hv.
  destruct (final_state envWidth envHeight wallWidth _ _ Hv) as [st [Hcalc [Hinv _]]].
  exists (heap_of st), (strides st), (envelopes st); split; [exact Hcalc|].
  intros k s j b Hk Hj. exact (planner_brick_time_at _ _ _ _ _ _ r R _ _ _ _ Hinv Hk Hj).
Qed.

Lemma planner_brick_times_witness :
  exists h ss es,
    calculateWallStrides sample_wall (seq 0 (length sample_wall)) 800 1300 650 = Some (h, ss, es) /\
    forall k s j b,
      nth_error (map (map (deref h)) ss) k = Some s -> nth_error s j = Some b ->
      calculateBrickTime (map (map (deref h)) ss) 10 600 (Some b) =
      getStrideStartTime (map (map (deref h)) ss) 10 600 (Z.of_nat k) + inject_Z (Z.of_nat j) * 10.
Proof. apply planner_brick_times; vm_compute; reflexivity. Defined.

Lemma concat_consecutive {A} : forall (L : list (list A)) i a b,
  (forall s, In s L -> s <> []) ->
  nth_error (concat L) i = Some a -> nth_error (concat L) (S i) = Some b ->
  exists k s j, nth_error L k = Some s /\ nth_error s j = Some a /\
    (nth_error s (S j) = Some b \/
     (S j = length s /\ exists s', nth_error L (S k) = Some s' /\ nth_error s' 0 = Some b)).
Proof.
  induction L as [|s L IH]; intros i a b Hne Ha Hb; [destruct i; discriminate|].
  cbn [concat] in Ha, Hb. destruct (Nat.lt_ge_cases i (length s)) as [Hi|Hi].
  - rewrite nth_error_app1 in Ha by exact Hi.
    exists 0%nat, s, i. split; [reflexivity|split; [exact Ha|]].
    destruct (Nat.lt_ge_cases (S i) (length s)) as [Hi'|Hi'].
    + left. rewrite nth_error_app1 in Hb by exact Hi'. exact Hb.
    + right. split; [lia|]. rewrite nth_error_app2 in Hb by exact Hi'.
      replace (S i - length s)%nat with 0%nat in Hb by lia.
      destruct L as [|s' L]; [destruct (S i - length s)%nat; discriminate|].
      exists s'. split; [reflexivity|]. simpl in Hb.
      destruct s' as [|c s']; [exfalso; apply (Hne []); simpl; auto|exact Hb].
  - rewrite nth_error_app2 in Ha, Hb by lia.
    replace (S i - length s)%nat with (S (i - length s)) in Hb by lia.
    destruct (IH (i - length s)%nat a b) as (k & s1 & j & H1 & H2 & H3);
      [intros s' Hs'; apply Hne; simpl; auto|exact Ha|exact Hb|].
    exists (S k), s1, j. auto.
Qed.

(** X14: In build order over the strides calculateWallStrides returns, the
    first brick's time is robotRepositionTime, and each brick's time exceeds
    the previous brick's time by repositionTime, or by repositionTime plus
    robotRepositionTime when a new stride starts. *)
Theorem planner_build_timeline h0 allWallBricks envWidth envHeight wallWidth r R :
  locs_valid h0 allWallBricks = true ->
  exists h ss es,
    calculateWallStrides h0 allWallBricks envWidth envHeight wallWidth = Some (h, ss, es) /\
    let RS := map (map (deref h)) ss in
    (forall b, nth_error (concat RS) 0 = Some b -> calculateBrickTime RS r R (Some b) == R) /\
    (forall i b b', nth_error (concat RS) i = Some b -> nth_error (concat RS) (S i) = Some b' ->
       calculateBrickTime RS r R (Some b') == calculateBrickTime RS r R (Some b) + r \/
       calculateBrickTime RS r R (Some b') == calculateBrickTime RS r R (Some b) + r + R).
Proof.
  intros Hv.
  destruct (final_state envWidth envHeight wallWidth _ _ Hv) as [st [Hcalc [Hinv _]]].
  exists (heap_of st), (strides st), (envelopes st); split; [exact Hcalc|]. cbv zeta.
  assert (Hne := fun s => output_stride_nonempty _ _ _ _ _ _ s Hinv).
  destruct (stride_start_times (map (map (deref (heap_of st))) (strides st)) r R)
    as [_ [H0 Hnext]].
  split.
  - intros b Hb.
    assert (Hs : exists s, nth_error (map (map (deref (heap_of st))) (strides st)) 0 = Some s /\
                           nth_error s 0 = Some b).
    { destruct (map (map (deref (heap_of st))) (strides st)) as [|s L] eqn:ES; [discriminate|].
      destruct s as [|c s]; [exfalso; apply (Hne []); [left; reflexivity|reflexivity]|].
      exists (c :: s). simpl in Hb |- *. injection Hb as <-. split; reflexivity. }
    destruct Hs as [s [Hk Hj]].
    rewrite (planner_brick_time_at _ _ _ _ _ _ r R _ _ _ _ Hinv Hk Hj).
    rewrite H0 by (intros E; rewrite E in Hk; discriminate). change (inject_Z (Z.of_nat 0)) with 0. lra.
  - intros i b b' Hb Hb'.
    destruct (concat_consecutive _ _ _ _ Hne Hb Hb') as (k & s & j & Hk & Hj & [Hj'|[Hl (s' & Hk' & Hs')]]).
    + left. rewrite (planner_brick_time_at _ _ _ _ _ _ r R _ _ _ _ Hinv Hk Hj).
      rewrite (planner_brick_time_at _ _ _ _ _ _ r R _ _ _ _ Hinv Hk Hj').
      rewrite Nat2Z.inj_succ. unfold Z.succ. rewrite inject_Z_plus. change (inject_Z 1) with 1. lra.
    + right. rewrite (planner_brick_time_at _ _ _ _ _ _ r R _ _ _ _ Hinv Hk Hj).
      rewrite (planner_brick_time_at _ _ _ _ _ _ r R _ _ _ _ Hinv Hk' Hs').
      rewrite (Hnext k s Hk) by (apply nth_error_Some; congruence).
      rewrite <- Hl, Nat2Z.inj_succ. unfold Z.succ. rewrite inject_Z_plus. change (inject_Z 1) with 1.
      change (inject_Z (Z.of_nat 0)) with 0. lra.
Qed.

Lemma planner_build_timeline_witness :
  exists h ss es,
    calculateWallStrides sample_wall (seq 0 (length sample_wall)) 800 1300 650 = Some (h, ss, es) /\
    let RS := map (map (deref h)) ss in
    (forall b, nth_error (concat RS) 0 = Some b -> calculateBrickTime RS 10 600 (Some b) == 600) /\
    (forall i b b', nth_error (concat RS) i = Some b -> nth_error (concat RS) (S i) = Some b' ->
       calculateBrickTime RS 10 600 (Some b') == calculateBrickTime RS 10 600 (Some b) + 10 \/
       calculateBrickTime RS 10 600 (Some b') == calculateBrickTime RS 10 600 (Some b) + 10 + 600).
Proof. apply planner_build_timeline; vm_compute; reflexivity. Defined.


Lemma colon_free_app a b : colon_free (a ++ b) = colon_free a && colon_free b.
Proof. induction a as [|c a IH]; simpl; [reflexivity|rewrite IH, andb_assoc; reflexivity]. Qed.

Lemma colon_split : forall a a' t t', colon_free a = true -> colon_free a' = true ->
  (a ++ String ":" t = a' ++ String ":" t')%string -> a = a' /\ t = t'.
Proof.
  induction a as [|c a IH]; intros [|c' a'] t t' Ha Ha' H; simpl in *.
  - injection H as ->. auto.
  - injection H as <- _. discriminate.
  - injection H as -> _. rewrite Ascii.eqb_refl in Ha. discriminate.
  - injection H as <- H. apply andb_true_iff in Ha as [_ Ha]. apply andb_true_iff in Ha' as [_ Ha'].
    destruct (IH a' t t' Ha Ha' H) as [-> ->]. auto.
Qed.

Lemma colon_free_uint : forall d, colon_free (string_of_uint d) = true.
Proof. induction d; simpl; auto. Qed.

Lemma colon_free_pad n : (0 <= n)%Z -> colon_free (padStart2 (js_string_of_Z n)) = true.
Proof.
  intros Hn. unfold js_string_of_Z. destruct (Z.ltb_spec n 0); [lia|].
  unfold padStart2, string_of_nat. assert (Hu := colon_free_uint (Nat.to_uint (Z.to_nat n))).
  destruct (String.length _) as [|[|k]]; simpl; auto.
Qed.


Lemma digits_val_uint : forall d acc, digits_val (string_of_uint d) acc = Nat.of_uint_acc d acc.
Proof.
  induction d; intros acc; cbn [digits_val string_of_uint Nat.of_uint_acc]; rewrite ?IHd; [reflexivity|..]; f_equal; rewrite Nat.tail_mul_spec; simpl; lia.
Qed.

Lemma digits_val_pad n : (0 <= n)%Z -> digits_val (padStart2 (js_string_of_Z n)) 0 = Z.to_nat n.
Proof.
  intros Hn. unfold js_string_of_Z. destruct (Z.ltb_spec n 0); [lia|].
  assert (Hd : digits_val (string_of_nat (Z.to_nat n)) 0 = Z.to_nat n).
  { unfold string_of_nat. rewrite digits_val_uint. apply DecimalNat.Unsigned.of_to. }
  unfold padStart2. destruct (string_of_nat (Z.to_nat n)) as [|c s] eqn:E; [exact Hd|].
  destruct s as [|c' s]; simpl in *; exact Hd.
Qed.

Lemma formatTime_fields s :
  (0 <= s)%Z ->
  (s = 3600 * (s / 3600) + 60 * (Z.rem s 3600 / 60) + Z.rem s 60 /\
   0 <= s / 3600 /\ 0 <= Z.rem s 3600 / 60 /\ 0 <= Z.rem s 60)%Z.
Proof.
  intros Hs. rewrite !Z.rem_mod_nonneg by lia.
  assert (E : (s mod 60 = (s mod 3600) mod 60)%Z).
  { rewrite <- (Z.mod_mod_divide s 3600 60) by (exists 60%Z; lia). reflexivity. }
  split; [|split; [apply Z.div_pos; lia|split; [apply Z.div_pos; [apply Z.mod_pos_bound|]; lia|
    apply Z.mod_pos_bound; lia]]].
  rewrite E. assert (H1 := Z.div_mod s 3600 ltac:(lia)).
  assert (H2 := Z.div_mod (s mod 3600) 60 ltac:(lia)). lia.
Qed.

(** X15: formatTime maps distinct non-negative whole numbers of seconds to
    distinct strings. *)
Theorem formatTime_injective s s' :
  (0 <= s)%Z -> (0 <= s')%Z -> formatTime s = formatTime s' -> s = s'.
Proof.
  intros Hs Hs' E.
  destruct (formatTime_fields s Hs) as (Es & Hh & Hm & Hc).
  destruct (formatTime_fields s' Hs') as (Es' & Hh' & Hm' & Hc').
  unfold formatTime in E.
  set (h := (s / 3600)%Z) in *. set (m := (Z.rem s 3600 / 60)%Z) in *. set (c := Z.rem s 60) in *.
  set (h' := (s' / 3600)%Z) in *. set (m' := (Z.rem s' 3600 / 60)%Z) in *.
  set (c' := Z.rem s' 60) in *.
  assert (Hv : forall a b, (0 <= a)%Z -> (0 <= b)%Z ->
            padStart2 (js_string_of_Z a) = padStart2 (js_string_of_Z b) -> a = b).
  { intros a b Ha Hb Eab. apply (f_equal (fun t => digits_val t 0)) in Eab.
    rewrite !digits_val_pad in Eab by assumption. lia. }
  assert (Hf := colon_free_pad). cbn [append] in E.
  destruct (Z.ltb_spec 0 h), (Z.ltb_spec 0 h'); cbn [append] in E.
  - apply colon_split in E as [E1 E]; auto. apply colon_split in E as [E2 E3]; auto.
    apply Hv in E1, E2, E3; auto. lia.
  - apply colon_split in E as [_ E]; auto.
    assert (Hc1 := Hf c' Hc'). rewrite <- E, colon_free_app in Hc1. simpl in Hc1.
    rewrite andb_false_r in Hc1. discriminate.
  - apply colon_split in E as [_ E]; auto.
    assert (Hc1 := Hf c Hc). rewrite E, colon_free_app in Hc1. simpl in Hc1.
    rewrite andb_false_r in Hc1. discriminate.
  - apply colon_split in E as [E2 E3]; auto. apply Hv in E2, E3; auto. lia.
Qed.

Lemma formatTime_injective_witness : formatTime 3725 = formatTime 3725 /\ 3725%Z = 3725%Z.
Proof. split; [reflexivity|apply formatTime_injective; [lia|lia|vm_compute; reflexivity]]. Defined.

Ltac qcases :=
  repeat match goal with
  | |- context [Qle_bool ?a ?b] =>
      let E := fresh "E" in destruct (Qle_bool a b) eqn:E; qprops; try (exfalso; lra)
  | |- context [Qlt_bool ?a ?b] =>
      let E := fresh "E" in destruct (Qlt_bool a b) eqn:E; qprops; try (exfalso; lra)
  end.

(** X16: With a positive scale and non-negative robot size, every point of
    the wall outside the highlighted envelope box is covered by exactly one
    overlay segment, and no point inside the envelope box is covered. *)
Theorem overlay_dims_outside_envelope wallWidth wallHeight wallScale robotWidth robotHeight
    env px py :
  0 < wallScale -> 0 <= robotWidth -> 0 <= robotHeight ->
  0 <= px -> px < wallWidth * wallScale -> 0 <= py -> py < wallHeight * wallScale ->
  length (filter (in_box px py)
            (overlay_segments wallWidth wallHeight wallScale robotWidth robotHeight env)) =
  if in_box px py (envelope_box wallScale robotWidth robotHeight env) then 0%nat else 1%nat.
Proof.
  intros Hs Hw Hh Hx1 Hx2 Hy1 Hy2.
  assert (HW := Qmult_le_0_compat _ _ Hw (Qlt_le_weak _ _ Hs)).
  assert (HH := Qmult_le_0_compat _ _ Hh (Qlt_le_weak _ _ Hs)).
  unfold overlay_segments, envelope_box, in_box. cbv zeta.
  generalize dependent (robotWidth * wallScale). generalize dependent (robotHeight * wallScale).
  generalize dependent (wallWidth * wallScale). generalize dependent (wallHeight * wallScale).
  generalize (minX env * wallScale) (minY env * wallScale).
  intros L B HP Hy2 WP Hx2 EH HH EW HW.
  cbn [box_left box_bottom box_width box_height]. qcases; simpl; qcases; simpl; reflexivity.
Qed.

Lemma overlay_dims_outside_envelope_witness :
  length (filter (in_box 50 60)
            (overlay_segments 650 130 2 400 100 (mkMeta 100 0 500 100))) =
  if in_box 50 60 (envelope_box 2 400 100 (mkMeta 100 0 500 100)) then 0%nat else 1%nat.
Proof.
  apply overlay_dims_outside_envelope; vm_compute; first [reflexivity | discriminate].
Defined.


Lemma joints_adjacent : forall bs, joints_ok bs -> adjacent_ok bs.
Proof.
  intros bs. induction bs as [|a0 bs IH]; intros Hj i a b Ha Hb Hy; [destruct i; discriminate|].
  destruct bs as [|b0 bs]; [destruct i as [|[|i]]; discriminate|].
  destruct Hj as [Hx Hj]. destruct i as [|i].
  - injection Ha as <-. injection Hb as <-. exact Hx.
  - exact (IH Hj i a b Ha Hb Hy).
Qed.

Lemma adjacent_ok_app l1 l2 :
  adjacent_ok l1 -> adjacent_ok l2 ->
  (forall a b, In a l1 -> In b l2 -> y a + COURSE_HEIGHT <= y b) ->
  adjacent_ok (l1 ++ l2).
Proof.
  intros H1 H2 H12 i a b Ha Hb Hy.
  destruct (Nat.lt_ge_cases (S i) (length l1)) as [Hi|Hi].
  - rewrite nth_error_app1 in Ha, Hb by lia. exact (H1 i a b Ha Hb Hy).
  - rewrite nth_error_app2 in Hb by lia.
    destruct (Nat.eq_dec (S i) (length l1)) as [Hi'|Hi'].
    + rewrite nth_error_app1 in Ha by lia. exfalso.
      assert (Ha' := nth_error_In _ _ Ha). assert (Hb' := nth_error_In _ _ Hb).
      specialize (H12 a b Ha' Hb'). unfold COURSE_HEIGHT in H12. lra.
    + rewrite nth_error_app2 in Ha by lia.
      replace (S i - length l1)%nat with (S (i - length l1)) in Hb by lia.
      exact (H2 _ a b Ha Hb Hy).
Qed.

Lemma lay_courses_adjacent bondType wallWidth : forall cs bs,
  StronglySorted lt cs -> lay_courses bondType wallWidth cs = Some bs -> adjacent_ok bs.
Proof.
  induction cs as [|c cs IH]; intros bs Hs H.
  - injection H as <-. intros i a b Ha; destruct i; discriminate.
  - simpl in H. destruct (course_bricks bondType wallWidth c) as [cb|] eqn:Ec; [|discriminate].
    destruct (lay_courses bondType wallWidth cs) as [rest|] eqn:Er; [|discriminate].
    injection H as <-. apply StronglySorted_inv in Hs as [Hs Hc].
    destruct (lay_courses_geometry bondType wallWidth cs rest Hs Er) as (Hf & _).
    unfold course_bricks in Ec.
    assert (Hsh := lay_course_shape _ _ _ _ (course_choice_ok bondType c) _ _ _ _ Ec).
    apply lay_course_geometry in Ec as [Hf1 _]; [|apply course_choice_ok].
    apply adjacent_ok_app; [| apply (IH rest Hs eq_refl) |].
    + destruct cb as [|b0 cb]; [intros i a b Ha; destruct i; discriminate|].
      apply joints_adjacent. apply Hsh.
    + intros a b Ha Hb. rewrite Forall_forall in Hf1, Hf, Hc.
      destruct (Hf1 a Ha) as (_ & _ & _ & Hya). destruct (Hf b Hb) as (c' & Hc' & _ & _ & _ & Hyb).
      rewrite Hya, Hyb. specialize (Hc c' Hc').
      assert (Hz : (Z.of_nat c + 1 <= Z.of_nat c')%Z) by lia.
      rewrite Zle_Qle, inject_Z_plus in Hz. change (inject_Z 1) with 1 in Hz.
      unfold COURSE_HEIGHT. nra.
Qed.

(** X4: For a layout from generateInitialBrickLayout, the hit boxes
    MasonryWall draws leave no gaps: the box of a brick ends where the box
    of the next brick of the same course starts, and the box of a brick
    reaches up to the bottom of the boxes one course higher. *)
Theorem generated_hit_boxes_abut bondType wallWidth wallHeight wallScale :
  exists bs, generateInitialBrickLayout bondType wallWidth wallHeight = Some bs /\
    (forall i a b, nth_error bs i = Some a -> nth_error bs (S i) = Some b -> y a == y b ->
       box_left (hit_box wallWidth wallHeight wallScale a) +
       box_width (hit_box wallWidth wallHeight wallScale a) ==
       box_left (hit_box wallWidth wallHeight wallScale b)) /\
    (forall a b, In a bs -> In b bs -> y b == y a + COURSE_HEIGHT ->
       box_bottom (hit_box wallWidth wallHeight wallScale a) +
       box_height (hit_box wallWidth wallHeight wallScale a) ==
       box_bottom (hit_box wallWidth wallHeight wallScale b)).
Proof.
  destruct (generated_layout_within_wall bondType wallWidth wallHeight) as [bs [Hg Hw]].
  exists bs. split; [exact Hg|].
  assert (Hadj : adjacent_ok bs).
  { unfold generateInitialBrickLayout in Hg. eapply lay_courses_adjacent; [|exact Hg].
    apply seq_StronglySorted. }
  rewrite Forall_forall in Hw. split.
  - intros i a b Ha Hb Hy. assert (Hx := Hadj i a b Ha Hb Hy).
    destruct (Hw b (nth_error_In _ _ Hb)) as (_ & Hlb & Hrb & _).
    unfold hit_box; cbn [box_left box_width].
    destruct (Qlt_bool (x a + len a) wallWidth) eqn:E; qprops.
    + rewrite Hx. ring.
    + exfalso. unfold HEAD_JOINT in Hx. lra.
  - intros a b Ha Hb Hy.
    destruct (Hw b Hb) as (_ & _ & _ & _ & Htop).
    unfold hit_box; cbn [box_bottom box_height].
    destruct (Qlt_bool (y a + COURSE_HEIGHT) wallHeight) eqn:E; qprops.
    + rewrite Hy. ring.
    + exfalso. unfold COURSE_HEIGHT in *. lra.
Qed.
